(** * nengo/utils/function_space.py: a shallow embedding

    The module builds an orthonormal basis for a family of sampled
    functions on a discretised hypercube.  Python floats are idealised
    as the real numbers [R]: [np.sqrt], [/] and [**] are the real
    operations, and [np.arange] takes exactly [ceil ((stop - start) / step)]
    steps.  numpy arrays carry their shape explicitly, so that arrays
    with no rows keep their column count, as in numpy. *)

From Stdlib Require Import Reals List ZArith Lia Lra Bool.
Import ListNotations.
Open Scope R_scope.

(** ** Exceptions and fallible results *)

Inductive exn : Type :=
| IndexError
| ValueError
| LinAlgError
| UserError (tag : nat).

Inductive result (A : Type) : Type :=
| Ok (a : A)
| Raise (e : exn).
Arguments Ok {A} a.
Arguments Raise {A} e.

Definition bindR {A B} (r : result A) (k : A -> result B) : result B :=
  match r with
  | Ok a => k a
  | Raise e => Raise e
  end.

Declare Scope res_scope.
Delimit Scope res_scope with res.
Notation "x <- e ;; k" := (bindR e (fun x => k))
  (at level 61, e at next level, right associativity) : res_scope.

(** ** numpy arrays *)

(** A two-dimensional array: its shape and its rows. *)
Record array2 : Type := mk2 {
  shape0 : nat;
  shape1 : nat;
  items : list (list R)
}.

Definition wf2 (a : array2) : Prop :=
  length (items a) = shape0 a /\
  Forall (fun r => length r = shape1 a) (items a).

(** An n-dimensional array as numpy stores it: shape and C-order data. *)
Record ndarr : Type := mkNd {
  nd_shape : list nat;
  nd_data : list R
}.

(** Arrays of dimension 0, 1 and 2, as [np.dot] distinguishes them. *)
Inductive ndarray : Type :=
| A0 (x : R)
| A1 (v : list R)
| A2 (a : array2).

(** ** np.arange on floats *)

Definition Rceil (x : R) : Z := (1 - up (- x))%Z.

(** [np.arange(start, stop, step)]: [ceil((stop - start)/step)] values
    [start + i*step]; a zero step is refused. *)
Definition arange (start stop step : R) : result (list R) :=
  if Req_dec_T step 0 then Raise ValueError
  else Ok (map (fun i => start + INR i * step)
               (seq 0 (Z.to_nat (Rceil ((stop - start) / step))))).

(** ** np.meshgrid (indexing='xy'), np.ravel, np.vstack *)

Definition prod_list (l : list nat) : nat := fold_right Nat.mul 1%nat l.

(** 'xy' indexing exchanges the first two axes when there are at least two. *)
Definition xy_axis (ndim k : nat) : nat :=
  if (ndim <=? 1)%nat then k
  else match k with
       | O => 1%nat
       | S O => O
       | _ => k
       end.

Definition xy_shape (lens : list nat) : list nat :=
  match lens with
  | n0 :: n1 :: rest => n1 :: n0 :: rest
  | _ => lens
  end.

(** C-order data of the broadcast of [axis] along one axis of a shape whose
    leading axes have [outer] cells in all and trailing axes [inner]. *)
Definition ravel_axis (axis : list R) (outer inner : nat) : list R :=
  concat (repeat (flat_map (fun x => repeat x inner) axis) outer).

Definition meshgrid (xi : list (list R)) : list ndarr :=
  let ndim := length xi in
  let shp := xy_shape (map (@length R) xi) in
  map (fun k =>
         let a := xy_axis ndim k in
         mkNd shp (ravel_axis (nth k xi [])
                              (prod_list (firstn a shp))
                              (prod_list (skipn (S a) shp))))
      (seq 0 ndim).

Definition ravel (a : ndarr) : list R := nd_data a.

Definition vstack (rows : list (list R)) : result array2 :=
  match rows with
  | [] => Raise ValueError
  | r :: rest =>
      if forallb (fun r' => (length r' =? length r)%nat) rest
      then Ok (mk2 (length rows) (length r) rows)
      else Raise ValueError
  end.

(** ** uniform_cube *)

Definition uniform_cube (domain_dim : Z) (radius d : R) : result array2 :=
  if (domain_dim =? 1)%Z then
    (domain_points <- arange (- radius) radius d ;;
     Ok (mk2 (length domain_points) 1 (map (fun x => [x]) domain_points)))%res
  else
    (axis <- arange (- radius) radius d ;;
     let grid := meshgrid (repeat axis (Z.to_nat domain_dim)) in
     vstack (map ravel grid))%res.

(** ** generate_functions *)

Section Generator.

(** [World] is the state of the random source the distributions draw
    from, [Param] the type of a sampled parameter, [Point] the type of
    a domain point. *)
Variables World Param Point : Type.

(** A nengo distribution: [sample(n)] draws from the random source and
    may raise. *)
Record Dist : Type := mkDist {
  sample : Z -> World -> result (list Param) * World
}.

(** The state threaded through a run: the random source and the log of
    the [sample] calls made so far (position in [arg_dists], argument). *)
Record St : Type := mkSt {
  world : World;
  calls : list (nat * Z)
}.

Definition M (A : Type) : Type := St -> result A * St.

Definition ret {A} (a : A) : M A := fun st => (Ok a, st).

Definition bind {A B} (m : M A) (k : A -> M B) : M B :=
  fun st =>
    match m st with
    | (Ok a, st') => k a st'
    | (Raise e, st') => (Raise e, st')
    end.

Definition lift {A} (r : result A) : M A := fun st => (r, st).

Definition call_sample (j : nat) (arg_dist : Dist) (n : Z) : M (list Param) :=
  fun st =>
    let (r, w) := sample arg_dist n (world st) in
    (r, mkSt w (calls st ++ [(j, n)])).

(** [[arg_dist.sample(n) for arg_dist in arg_dists]], from position [j]. *)
Fixpoint sample_all (j : nat) (arg_dists : list Dist) (n : Z)
  : M (list (list Param)) :=
  match arg_dists with
  | [] => ret []
  | arg_dist :: rest =>
      bind (call_sample j arg_dist n) (fun s =>
      bind (sample_all (S j) rest n) (fun ss =>
      ret (s :: ss)))
  end.

(** The loop of [func] that appends [arg_sample[i]] for every sample. *)
Fixpoint collect_args (arg_samples : list (list Param)) (i : nat)
  : result (list Param) :=
  match arg_samples with
  | [] => Ok []
  | arg_sample :: rest =>
      match nth_error arg_sample i with
      | None => Raise IndexError
      | Some a => (args <- collect_args rest i ;; Ok (a :: args))%res
      end
  end.

(** [func(point, i=i)]: the index is fixed when the function is made. *)
Definition func (function : Point -> list Param -> result R)
           (arg_samples : list (list Param)) (i : nat) (point : Point)
  : result R :=
  (args <- collect_args arg_samples i ;; function point args)%res.

Definition generate_functions (function : Point -> list Param -> result R)
           (n : Z) (arg_dists : list Dist)
  : M (list (Point -> result R)) :=
  bind (sample_all 0 arg_dists n) (fun arg_samples =>
  ret (map (func function arg_samples) (seq 0 (Z.to_nat n)))).

End Generator.

Arguments mkDist {World Param} sample.
Arguments sample {World Param} d n w.
Arguments mkSt {World} world calls.
Arguments world {World} s.
Arguments calls {World} s.
Arguments ret {World A} a st.
Arguments bind {World A B} m k st.
Arguments lift {World A} r st.
Arguments call_sample {World Param} j arg_dist n st.
Arguments sample_all {World Param} j arg_dists n st.
Arguments collect_args {Param} arg_samples i.
Arguments func {Param Point} function arg_samples i point.
Arguments generate_functions {World Param Point} function n arg_dists st.

(** ** function_values *)

Fixpoint set_nth {A} (i : nat) (x : A) (l : list A) : list A :=
  match l, i with
  | [], _ => []
  | _ :: t, O => x :: t
  | h :: t, S i' => h :: set_nth i' x t
  end.

Definition get2 (a : array2) (j i : nat) : R := nth i (nth j (items a) []) 0.

(** [values[j, i] = v]: an index outside the shape is an IndexError. *)
Definition setitem2 (a : array2) (j i : nat) (v : R) : result array2 :=
  if ((j <? shape0 a)%nat && (i <? shape1 a)%nat)%bool
  then Ok (mk2 (shape0 a) (shape1 a)
               (set_nth j (set_nth i v (nth j (items a) [])) (items a)))
  else Raise IndexError.

Section Evaluator.

Variable P : Type.

(** What [np.empty] finds in the memory it is given. *)
Variable uninit : nat -> nat -> R.

Definition np_empty (m n : nat) : array2 :=
  mk2 m n (map (fun j => map (uninit j) (seq 0 n)) (seq 0 m)).

(** [for i, function in enumerate(functions): values[j, i] = function(point)] *)
Fixpoint inner_loop (values : array2) (j : nat) (point : P) (i : nat)
         (functions : list (P -> result R)) : result array2 :=
  match functions with
  | [] => Ok values
  | function :: rest =>
      (v <- function point ;;
       values' <- setitem2 values j i v ;;
       inner_loop values' j point (S i) rest)%res
  end.

(** [for j, point in enumerate(domain_points): ...] *)
Fixpoint outer_loop (values : array2) (j : nat) (domain_points : list P)
         (functions : list (P -> result R)) : result array2 :=
  match domain_points with
  | [] => Ok values
  | point :: rest =>
      (values' <- inner_loop values j point 0 functions ;;
       outer_loop values' (S j) rest functions)%res
  end.

Definition function_values (functions : list (P -> result R))
           (domain_points : list P) : result array2 :=
  outer_loop (np_empty (length domain_points) (length functions))
             0 domain_points functions.

End Evaluator.

Arguments inner_loop {P} values j point i functions.
Arguments outer_loop {P} values j domain_points functions.
Arguments function_values {P} uninit functions domain_points.

(** ** Linear algebra on arrays *)

Fixpoint dotv (u v : list R) : R :=
  match u, v with
  | x :: u', y :: v' => x * y + dotv u' v'
  | _, _ => 0
  end.

Definition col (j : nat) (rows : list (list R)) : list R :=
  map (fun r => nth j r 0) rows.

(** [a.T] *)
Definition transpose (a : array2) : array2 :=
  mk2 (shape1 a) (shape0 a)
      (map (fun j => col j (items a)) (seq 0 (shape1 a))).

Definition T (x : ndarray) : ndarray :=
  match x with
  | A2 a => A2 (transpose a)
  | _ => x
  end.

(** [x * s] for a scalar [s] *)
Definition mul_scalar (x : ndarray) (s : R) : ndarray :=
  match x with
  | A0 y => A0 (y * s)
  | A1 v => A1 (map (fun y => y * s) v)
  | A2 a => A2 (mk2 (shape0 a) (shape1 a)
                    (map (map (fun y => y * s)) (items a)))
  end.

(** [a / s] for a scalar [s] *)
Definition div_scalar (a : array2) (s : R) : array2 :=
  mk2 (shape0 a) (shape1 a) (map (map (fun y => y / s)) (items a)).

(** [np.dot]: products of scalars, vectors and matrices; the inner
    dimensions must agree. *)
Definition np_dot (x y : ndarray) : result ndarray :=
  match x, y with
  | A0 s, _ => Ok (mul_scalar y s)
  | _, A0 s => Ok (mul_scalar x s)
  | A1 u, A1 v =>
      if (length u =? length v)%nat then Ok (A0 (dotv u v))
      else Raise ValueError
  | A1 u, A2 b =>
      if (length u =? shape0 b)%nat
      then Ok (A1 (map (fun j => dotv u (col j (items b)))
                       (seq 0 (shape1 b))))
      else Raise ValueError
  | A2 a, A1 v =>
      if (shape1 a =? length v)%nat
      then Ok (A1 (map (fun r => dotv r v) (items a)))
      else Raise ValueError
  | A2 a, A2 b =>
      if (shape1 a =? shape0 b)%nat
      then Ok (A2 (mk2 (shape0 a) (shape1 b)
                       (map (fun r => map (fun j => dotv r (col j (items b)))
                                          (seq 0 (shape1 b)))
                            (items a))))
      else Raise ValueError
  end.

(** The stop of the slice [:k] on an axis of length [len]. *)
Definition slice_stop (k : Z) (len : nat) : nat :=
  if (k <? 0)%Z then Z.to_nat (Z.of_nat len + k)
  else Nat.min (Z.to_nat k) len.

(** [a[:, :k]] *)
Definition slice_cols (a : array2) (k : Z) : array2 :=
  let c := slice_stop k (shape1 a) in
  mk2 (shape0 a) c (map (firstn c) (items a)).

(** [x.shape[0]]; a 0-dimensional array has an empty shape. *)
Definition shape_0 (x : ndarray) : result nat :=
  match x with
  | A0 _ => Raise IndexError
  | A1 v => Ok (length v)
  | A2 a => Ok (shape0 a)
  end.

Definition size (x : ndarray) : nat :=
  match x with
  | A0 _ => 1%nat
  | A1 v => length v
  | A2 a => (shape0 a * shape1 a)%nat
  end.

Definition flatten (x : ndarray) : list R :=
  match x with
  | A0 y => [y]
  | A1 v => v
  | A2 a => concat (items a)
  end.

(** [x.reshape((k,))]: the size must be [k], or [k] is -1. *)
Definition reshape1 (x : ndarray) (k : Z) : result ndarray :=
  if ((k =? -1)%Z || (k =? Z.of_nat (size x))%Z)%bool
  then Ok (A1 (flatten x))
  else Raise ValueError.

Definition identity (n : nat) : array2 :=
  mk2 n n (map (fun i => map (fun j => if (i =? j)%nat then 1 else 0)
                             (seq 0 n))
               (seq 0 n)).

(** ** Function_Space *)

(** The field [S] of the class is [S_] here. *)
Record Function_Space : Type := mkFS {
  domain : array2;
  fns : array2;
  dx : R;
  n_basis : Z;
  U : array2;
  S_ : list R;
  basis : array2
}.

Section Space.

Variables World Param : Type.

(** [np.linalg.svd], with [full_matrices] left at its default. *)
Variable svd : array2 -> result (array2 * list R * array2).

Variable uninit : nat -> nat -> R.

(** [Function_Space.__init__] *)
Definition init (fn : list R -> list Param -> result R) (domain_dim : Z)
           (dist_args : list (Dist World Param))
           (n_functions n_basis : Z) (d radius : R)
  : M World Function_Space :=
  bind (lift (uniform_cube domain_dim radius d)) (fun domain =>
  bind (generate_functions fn n_functions dist_args) (fun functions =>
  bind (lift (function_values uninit functions (items domain))) (fun fns =>
  let dx := d ^ shape1 domain in
  bind (lift (svd fns)) (fun usv =>
  let '(U, Sv, V) := usv in
  ret (mkFS domain fns dx n_basis U Sv
            (div_scalar (slice_cols U n_basis) (sqrt dx))))))).

End Space.

Arguments init {World Param} svd uninit fn domain_dim dist_args
  n_functions n_basis d radius st.

Definition select_top_basis (self : Function_Space) (n_basis : Z)
  : Function_Space :=
  mkFS (domain self) (fns self) (dx self) n_basis (U self) (S_ self)
       (div_scalar (slice_cols (U self) n_basis) (sqrt (dx self))).

Definition get_basis (self : Function_Space) : array2 := basis self.

Definition singular_values (self : Function_Space) : list R := S_ self.

Definition reconstruct (self : Function_Space) (coefficients : ndarray)
  : result ndarray :=
  np_dot (A2 (basis self)) coefficients.

Definition encoder_coeffs (self : Function_Space) : result ndarray :=
  (p <- np_dot (A2 (transpose (fns self))) (A2 (basis self)) ;;
   Ok (mul_scalar p (dx self)))%res.

Definition signal_coeffs (self : Function_Space) (signal : ndarray)
  : result ndarray :=
  (p <- np_dot (T signal) (A2 (basis self)) ;;
   let signal_coeff := mul_scalar p (dx self) in
   s0 <- shape_0 signal_coeff ;;
   if (s0 =? 1)%nat then reshape1 signal_coeff (n_basis self)
   else Ok signal_coeff)%res.

(** ** Vocabulary of the statements *)

(** The number of ticks [np.arange(-radius, radius, d)] produces. *)
Definition n_ticks (radius d : R) : nat :=
  Z.to_nat (Rceil ((radius - - radius) / d)).

Definition ticks (radius d : R) : list R :=
  map (fun i => - radius + INR i * d) (seq 0 (n_ticks radius d)).

(** The rows [np.vstack(map(np.ravel, grid))] stacks when all the axes
    are the same: row [k] runs over the axis along mesh axis [xy_axis k]. *)
Definition mesh_rows (ndim : nat) (axis : list R) : list (list R) :=
  let n := length axis in
  map (fun k => ravel_axis axis (n ^ xy_axis ndim k)
                           (n ^ (ndim - S (xy_axis ndim k))))
      (seq 0 ndim).

(** Every call before position [(s, t)] in the order of the loops
    (points outside, functions inside) returned a value. *)
Definition calls_before_ok {P : Type} (functions : list (P -> result R))
           (domain_points : list P) (s t : nat) : Prop :=
  forall s' t' p f,
    (s' < s \/ (s' = s /\ t' < t))%nat ->
    nth_error domain_points s' = Some p ->
    nth_error functions t' = Some f ->
    exists v, f p = Ok v.

(** The samples a run of the list comprehension of [generate_functions]
    draws: each distribution is asked once, in order, and hands the
    random source on to the next. *)
Inductive draws {World Param : Type} (n : Z)
  : World -> list (Dist World Param) -> list (list Param) -> World -> Prop :=
| draws_nil w : draws n w [] [] w
| draws_cons w arg_dist rest s w' ss w'' :
    sample arg_dist n w = (Ok s, w') ->
    draws n w' rest ss w'' ->
    draws n w (arg_dist :: rest) (s :: ss) w''.

(** [args] are the entries at index [k] of the sample sequences. *)
Definition args_at {Param : Type} (k : nat) (arg_samples : list (list Param))
           (args : list Param) : Prop :=
  Forall2 (fun s a => nth_error s k = Some a) arg_samples args.

(** A distribution that answers [sample(n)] with [n] values. *)
Definition samples_n {World Param : Type} (n : Z) (arg_dist : Dist World Param)
  : Prop :=
  forall w, exists s w',
    sample arg_dist n w = (Ok s, w') /\ length s = Z.to_nat n.

(** The number of points a space was built on: the rows of its domain
    array, one per point handed to [function_values]; for
    [domain_dim = 1] this is the number of grid points. *)
Definition n_points (self : Function_Space) : nat := shape0 (domain self).

(** [basis.T @ basis * dx] *)
Definition gram_dx (self : Function_Space) : result ndarray :=
  (g <- np_dot (A2 (transpose (basis self))) (A2 (basis self)) ;;
   Ok (mul_scalar g (dx self)))%res.

(** What [np.linalg.svd(a)] promises of its first result [u]: a square
    array with as many rows as [a] and orthonormal columns. *)
Definition svd_left_unitary (a u : array2) : Prop :=
  wf2 u /\ shape0 u = shape0 a /\ shape1 u = shape0 a /\
  np_dot (A2 (transpose u)) (A2 u) = Ok (A2 (identity (shape0 a))).

(** The states a space goes through: as constructed, then after any
    number of [select_top_basis] calls. *)
Inductive reachable (fs0 : Function_Space) : Function_Space -> Prop :=
| reach_init : reachable fs0 fs0
| reach_select fs k :
    reachable fs0 fs -> reachable fs0 (select_top_basis fs k).

(** The number of grid points an array returned by [uniform_cube] holds:
    its entries, [domain_dim] to a point. *)
Definition point_count (domain_dim : Z) (g : array2) : nat :=
  (shape0 g * shape1 g / Z.to_nat domain_dim)%nat.


(** ** Example data *)

(** A space on the two points -1 and 0 of the line, tiled by the one
    function [x + 1]; the array of its values, with rows (0) and (1),
    has the singular value decomposition [svd0] returns. *)
Definition fn0 (point : list R) (args : list R) : result R :=
  Ok (nth 0 point 0 + 1).

Definition U0 : array2 := mk2 2 2 [[0; 1]; [1; 0]].

Definition svd0 (a : array2) : result (array2 * list R * array2) :=
  Ok (U0, [1], mk2 1 1 [[1]]).

Definition zeros (j i : nat) : R := 0.

Definition st0 : St unit := mkSt tt [].

Definition ex_domain : array2 := mk2 2 1 [[-1 + 0 * 1]; [-1 + 1 * 1]].

Definition ex_fns : array2 := mk2 2 1 [[-1 + 0 * 1 + 1]; [-1 + 1 * 1 + 1]].

Definition fs_ex : Function_Space :=
  mkFS ex_domain ex_fns (1 ^ 1) 1 U0 [1]
       (div_scalar (slice_cols U0 1) (sqrt (1 ^ 1))).

(** On the square, with step 1/2, the function [2 * (p[4] + 1)] takes
    the values 0 and 1 on the two rows of the domain array. *)
Definition fn2 (point : list R) (args : list R) : result R :=
  Ok (2 * (nth 4 point 0 + 1)).

(** A distribution on a counter: [sample(n)] hands out the next [n]
    numbers. *)
Definition counter_dist : Dist nat R :=
  mkDist (fun n w => (Ok (map (fun i => INR (w + i)) (seq 0 (Z.to_nat n))),
                      (w + Z.to_nat n)%nat)).

Definition sum_fn (point : R) (args : list R) : result R :=
  Ok (fold_right Rplus point args).

(** A distribution whose [sample(n)] raises [e]. *)
Definition always_raises {World Param : Type} (n : Z) (e : exn)
           (arg_dist : Dist World Param) : Prop :=
  forall w, exists w', sample arg_dist n w = (Raise e, w').

(** The [j]-th unit coefficient vector of length [c]. *)
Definition unit_vector (j c : nat) : list R :=
  map (fun t => if (t =? j)%nat then 1 else 0) (seq 0 c).

(** A distribution that cannot be sampled. *)
Definition failing_dist : Dist nat R :=
  mkDist (fun n w => (Raise (UserError 7), w)).

(** A base function on array points with sampled parameters. *)
Definition sum_fn_point (point : list R) (args : list R) : result R :=
  Ok (fold_right Rplus (nth 0 point 0) args).

(** What [np.linalg.svd(a)] gives for the shape of its first result [u]:
    a square array with as many rows as [a]. *)
Definition svd_shape (a u : array2) : Prop :=
  wf2 u /\ shape0 u = shape0 a /\ shape1 u = shape0 a.

(** A space on the two points -4 and 0 of the line (radius 4, step 4),
    tiled by the one function [x / 4 + 1], constructed with [n_basis = nb];
    the values are 0 and 1 again, and [dx] is 4. *)
Definition fn4 (point : list R) (args : list R) : result R :=
  Ok (nth 0 point 0 / 4 + 1).

Definition ex4_domain : array2 := mk2 2 1 [[-4 + 0 * 4]; [-4 + 1 * 4]].

Definition ex4_fns : array2 :=
  mk2 2 1 [[(-4 + 0 * 4) / 4 + 1]; [(-4 + 1 * 4) / 4 + 1]].

Definition space4 (nb : Z) : Function_Space :=
  mkFS ex4_domain ex4_fns (4 ^ 1) nb U0 [1]
       (div_scalar (slice_cols U0 nb) (sqrt (4 ^ 1))).

(** On the square with step 1/2, three copies of [fn2] give the array of
    values with rows (0, 0, 0) and (1, 1, 1), of which this is a singular
    value decomposition. *)
Definition Vh3 : array2 :=
  mk2 3 3 [[1 / sqrt 3; 1 / sqrt 3; 1 / sqrt 3];
           [1 / sqrt 2; - (1) / sqrt 2; 0];
           [1 / sqrt 6; 1 / sqrt 6; - (2) / sqrt 6]].

Definition svd3 (a : array2) : result (array2 * list R * array2) :=
  Ok (U0, [sqrt 3; 0], Vh3).


(** The shape of the first axis of a result, 0 for a failure. *)
Definition rows_of (r : result ndarray) : nat :=
  match r with
  | Ok (A2 a) => shape0 a
  | Ok (A1 v) => length v
  | _ => 0%nat
  end.

(** * Properties *)

(** ** Ceiling and np.arange *)

Lemma Rceil_spec (x : R) : IZR (Rceil x) - 1 < x <= IZR (Rceil x).
Proof.
  unfold Rceil. destruct (archimed (- x)) as [H1 H2].
  rewrite minus_IZR. lra.
Qed.

Lemma Rceil_unique (z : Z) (x : R) : IZR z - 1 < x <= IZR z -> Rceil x = z.
Proof.
  intros [H1 H2]. unfold Rceil.
  assert (E : (1 - z)%Z = up (- x)).
  { apply tech_up; rewrite minus_IZR; lra. }
  rewrite <- E. lia.
Qed.

Lemma Rceil_IZR (z : Z) : Rceil (IZR z) = z.
Proof. apply Rceil_unique. lra. Qed.

Lemma arange_ticks (radius d : R) :
  d <> 0 -> arange (- radius) radius d = Ok (ticks radius d).
Proof.
  intros Hd. unfold arange.
  destruct (Req_dec_T d 0) as [E | _]; [contradiction | reflexivity].
Qed.

Lemma length_ticks (radius d : R) : length (ticks radius d) = n_ticks radius d.
Proof. unfold ticks. now rewrite length_map, length_seq. Qed.


Lemma ticks_range (radius d x : R) :
  0 < d -> In x (ticks radius d) -> - radius <= x < radius.
Proof.
  intros Hd Hin. unfold ticks in Hin. apply in_map_iff in Hin.
  destruct Hin as [i [<- Hi]]. apply in_seq in Hi.
  assert (Hi0 : 0 <= INR i) by apply pos_INR.
  split; [nra |].
  unfold n_ticks in Hi.
  destruct (Rceil_spec ((radius - - radius) / d)) as [Hlo _].
  set (c := Rceil ((radius - - radius) / d)) in *.
  assert (Hc : (Z.of_nat i <= c - 1)%Z) by lia.
  apply IZR_le in Hc. rewrite minus_IZR, <- INR_IZR_INZ in Hc.
  assert (Hlt : INR i < (radius - - radius) / d) by lra.
  apply (Rmult_lt_compat_r d) in Hlt; [| assumption].
  unfold Rdiv in Hlt. rewrite Rmult_assoc, Rinv_l, Rmult_1_r in Hlt by lra.
  lra.
Qed.

(** ** The flattened mesh *)

Lemma length_concat_repeat {A} (l : list A) (k : nat) :
  length (concat (repeat l k)) = (k * length l)%nat.
Proof.
  induction k as [| k IH]; simpl; [reflexivity |].
  rewrite length_app, IH. reflexivity.
Qed.

Lemma length_spread {A} (l : list A) (inner : nat) :
  length (flat_map (fun x => repeat x inner) l) = (length l * inner)%nat.
Proof.
  induction l as [| x l IH]; simpl; [reflexivity |].
  rewrite length_app, repeat_length, IH. reflexivity.
Qed.

Lemma length_ravel_axis (axis : list R) (outer inner : nat) :
  length (ravel_axis axis outer inner) = (outer * (length axis * inner))%nat.
Proof.
  unfold ravel_axis. now rewrite length_concat_repeat, length_spread.
Qed.

Lemma In_ravel_axis (axis : list R) (outer inner : nat) (x : R) :
  In x (ravel_axis axis outer inner) -> In x axis.
Proof.
  unfold ravel_axis. intros H. apply in_concat in H.
  destruct H as [l [Hl Hx]]. apply repeat_spec in Hl. subst l.
  apply in_flat_map in Hx. destruct Hx as [y [Hy Hx]].
  apply repeat_spec in Hx. now subst.
Qed.

Lemma prod_repeat (n k : nat) : prod_list (repeat n k) = (n ^ k)%nat.
Proof. induction k as [| k IH]; simpl; [reflexivity | now rewrite <- IH]. Qed.

Lemma xy_shape_repeat (n k : nat) : xy_shape (repeat n k) = repeat n k.
Proof. destruct k as [| [| k]]; reflexivity. Qed.

Lemma xy_axis_lt (ndim k : nat) : (k < ndim)%nat -> (xy_axis ndim k < ndim)%nat.
Proof.
  intros H. unfold xy_axis. destruct (Nat.leb_spec ndim 1); [assumption |].
  destruct k as [| [| k]]; lia.
Qed.

Lemma prod_firstn_repeat (n k a : nat) :
  (a <= k)%nat -> prod_list (firstn a (repeat n k)) = (n ^ a)%nat.
Proof.
  revert k. induction a as [| a IH]; intros k H; [reflexivity |].
  destruct k as [| k]; [lia |]. simpl. rewrite IH by lia. reflexivity.
Qed.

Lemma prod_skipn_repeat (n k a : nat) :
  prod_list (skipn a (repeat n k)) = (n ^ (k - a))%nat.
Proof.
  revert k. induction a as [| a IH]; intros k.
  - rewrite Nat.sub_0_r. apply prod_repeat.
  - destruct k as [| k]; [reflexivity |]. simpl. apply IH.
Qed.

Lemma meshgrid_repeat (ndim : nat) (axis : list R) :
  map ravel (meshgrid (repeat axis ndim)) = mesh_rows ndim axis.
Proof.
  unfold meshgrid, mesh_rows. rewrite map_map, repeat_length.
  apply map_ext_in. intros k Hk. apply in_seq in Hk. cbn [ravel nd_data].
  rewrite map_repeat, xy_shape_repeat.
  rewrite nth_repeat_lt by lia.
  rewrite prod_firstn_repeat by (pose proof (xy_axis_lt ndim k); lia).
  now rewrite prod_skipn_repeat.
Qed.

Lemma mesh_row_length (ndim : nat) (axis r : list R) :
  In r (mesh_rows ndim axis) -> length r = (length axis ^ ndim)%nat.
Proof.
  unfold mesh_rows. intros H. apply in_map_iff in H.
  destruct H as [k [<- Hk]]. apply in_seq in Hk.
  rewrite length_ravel_axis.
  pose proof (xy_axis_lt ndim k ltac:(lia)) as Ha.
  set (a := xy_axis ndim k) in *. set (n := length axis).
  replace (n ^ ndim)%nat with (n ^ (a + S (ndim - S a)))%nat by (f_equal; lia).
  rewrite Nat.pow_add_r. simpl. lia.
Qed.

Lemma nth_concat_repeat {A} (l : list A) (k f : nat) (d : A) :
  (f < k * length l)%nat ->
  nth f (concat (repeat l k)) d = nth (f mod length l) l d.
Proof.
  revert f. induction k as [| k IH]; intros f Hf; [simpl in Hf; lia |].
  simpl in *. destruct (Nat.lt_ge_cases f (length l)) as [Hlt | Hge].
  - rewrite app_nth1 by assumption. now rewrite Nat.mod_small.
  - rewrite app_nth2 by assumption. rewrite IH by lia.
    f_equal. 
    replace f with ((f - length l) + 1 * length l)%nat at 2 by lia.
    rewrite Nat.Div0.mod_add. reflexivity.
Qed.

Lemma nth_spread {A} (l : list A) (inner g : nat) (d : A) :
  inner <> 0%nat ->
  nth g (flat_map (fun x => repeat x inner) l) d = nth (g / inner) l d.
Proof.
  intros Hi. revert g. induction l as [| a l IH]; intros g.
  - assert (Hnil : forall i, nth i (@nil A) d = d) by (intros []; reflexivity).
    cbn [flat_map]. now rewrite !Hnil.
  - cbn [flat_map]. destruct (Nat.lt_ge_cases g inner) as [Hlt | Hge].
    + rewrite app_nth1 by now rewrite repeat_length.
      rewrite nth_repeat_lt by assumption. now rewrite Nat.div_small.
    + rewrite app_nth2 by now rewrite repeat_length.
      rewrite repeat_length, IH.
      replace g with ((g - inner) + 1 * inner)%nat at 2 by lia.
      rewrite Nat.div_add by assumption.
      now rewrite Nat.add_1_r.
Qed.

(** Column [f] of the stacked mesh is a grid point: its coordinate on
    row [k] is the tick whose index is the digit of [f], written in base
    [n] in row-major order, at mesh axis [xy_axis k]. *)
Lemma mesh_entry (ndim k f : nat) (axis : list R) :
  (k < ndim)%nat -> (f < length axis ^ ndim)%nat ->
  nth f (nth k (mesh_rows ndim axis) []) 0 =
  nth ((f / length axis ^ (ndim - S (xy_axis ndim k))) mod length axis) axis 0.
Proof.
  intros Hk Hf. unfold mesh_rows.
  set (n := length axis) in *.
  pose proof (xy_axis_lt ndim k Hk) as Ha.
  set (a := xy_axis ndim k) in *.
  assert (Hn : n <> 0%nat).
  { intros E. rewrite E in Hf. destruct ndim; [lia |]. simpl in Hf. lia. }
  set (inner := (n ^ (ndim - S a))%nat).
  assert (Hinner : inner <> 0%nat) by (apply Nat.pow_nonzero; assumption).
  rewrite (nth_indep _ [] ((fun k => ravel_axis axis (n ^ xy_axis ndim k)
                                  (n ^ (ndim - S (xy_axis ndim k)))) 0%nat))
    by now rewrite length_map, length_seq.
  rewrite (map_nth (fun k => ravel_axis axis (n ^ xy_axis ndim k)
                                        (n ^ (ndim - S (xy_axis ndim k))))).
  rewrite seq_nth by assumption. simpl. fold a. fold inner.
  unfold ravel_axis.
  assert (Hlen : length (flat_map (fun x => repeat x inner) axis) = (n * inner)%nat)
    by apply length_spread.
  rewrite nth_concat_repeat.
  - rewrite nth_spread by assumption. rewrite Hlen. f_equal.
    rewrite (Nat.mul_comm n inner), Nat.Div0.mod_mul_r.
    rewrite (Nat.mul_comm inner), Nat.div_add by assumption.
    rewrite Nat.div_small by (apply Nat.mod_upper_bound; assumption).
    reflexivity.
  - rewrite Hlen.
    replace (n ^ a * (n * inner))%nat with (n ^ ndim)%nat; [assumption |].
    unfold inner.
    replace (n ^ ndim)%nat with (n ^ (a + S (ndim - S a)))%nat by (f_equal; lia).
    rewrite Nat.pow_add_r. simpl. lia.
Qed.

Lemma vstack_uniform (rows : list (list R)) (len : nat) :
  rows <> [] -> (forall r, In r rows -> length r = len) ->
  vstack rows = Ok (mk2 (length rows) len rows).
Proof.
  intros Hne Hlen. destruct rows as [| r rest]; [contradiction |].
  unfold vstack.
  assert (E : forallb (fun r' => (length r' =? length r)%nat) rest = true).
  { apply forallb_forall. intros r' Hr'. apply Nat.eqb_eq.
    rewrite (Hlen r), (Hlen r'); simpl; auto. }
  rewrite E. f_equal. f_equal. apply Hlen. now left.
Qed.

(** What [uniform_cube] returns in one dimension: a column of ticks. *)
Lemma uniform_cube_1 (radius d : R) :
  d <> 0 ->
  uniform_cube 1 radius d =
  Ok (mk2 (n_ticks radius d) 1 (map (fun x => [x]) (ticks radius d))).
Proof.
  intros Hd. unfold uniform_cube. simpl.
  rewrite arange_ticks by assumption. simpl. now rewrite length_ticks.
Qed.

(** What [uniform_cube] returns in higher dimension: one row per axis. *)
Lemma uniform_cube_mesh (domain_dim : Z) (radius d : R) :
  (1 < domain_dim)%Z -> d <> 0 ->
  uniform_cube domain_dim radius d =
  Ok (mk2 (Z.to_nat domain_dim)
          (n_ticks radius d ^ Z.to_nat domain_dim)
          (mesh_rows (Z.to_nat domain_dim) (ticks radius d))).
Proof.
  intros Hdim Hd. unfold uniform_cube.
  destruct (Z.eqb_spec domain_dim 1) as [E | _]; [lia |].
  rewrite arange_ticks by assumption. simpl.
  rewrite meshgrid_repeat.
  rewrite (vstack_uniform _ (n_ticks radius d ^ Z.to_nat domain_dim)).
  - f_equal. f_equal. unfold mesh_rows. now rewrite length_map, length_seq.
  - unfold mesh_rows. destruct (Z.to_nat domain_dim) eqn:E; [lia | discriminate].
  - intros r Hr. rewrite <- length_ticks. now apply mesh_row_length.
Qed.

(** ** Writing into an array *)

Lemma length_set_nth {A} (i : nat) (x : A) (l : list A) :
  length (set_nth i x l) = length l.
Proof.
  revert i. induction l as [| h t IH]; intros [| i]; simpl; auto.
Qed.

Lemma nth_set_nth_eq {A} (i : nat) (x d : A) (l : list A) :
  (i < length l)%nat -> nth i (set_nth i x l) d = x.
Proof.
  revert i. induction l as [| h t IH]; intros [| i] H; simpl in *;
    try lia; auto. apply IH. lia.
Qed.

Lemma nth_set_nth_ne {A} (i k : nat) (x d : A) (l : list A) :
  k <> i -> nth k (set_nth i x l) d = nth k l d.
Proof.
  revert i k. induction l as [| h t IH]; intros [| i] [| k] H; simpl;
    try reflexivity; try congruence. apply IH. congruence.
Qed.

Lemma Forall_set_nth {A} (Q : A -> Prop) (i : nat) (x : A) (l : list A) :
  Forall Q l -> Q x -> Forall Q (set_nth i x l).
Proof.
  intros Hl Hx. revert i. induction Hl as [| h t Hh Ht IH]; intros [| i];
    simpl; constructor; auto.
Qed.

Lemma wf2_row (a : array2) (j : nat) :
  wf2 a -> (j < shape0 a)%nat -> length (nth j (items a) []) = shape1 a.
Proof.
  intros [Hlen Hrows] Hj. rewrite Forall_forall in Hrows.
  apply Hrows. apply nth_In. lia.
Qed.

Lemma setitem2_ok (a : array2) (j i : nat) (v : R) :
  wf2 a -> (j < shape0 a)%nat -> (i < shape1 a)%nat ->
  exists a',
    setitem2 a j i v = Ok a' /\
    shape0 a' = shape0 a /\ shape1 a' = shape1 a /\ wf2 a' /\
    get2 a' j i = v /\
    (forall j' i', j' <> j \/ i' <> i -> get2 a' j' i' = get2 a j' i').
Proof.
  intros Hwf Hj Hi. unfold setitem2.
  destruct (Nat.ltb_spec j (shape0 a)); [| lia].
  destruct (Nat.ltb_spec i (shape1 a)); [| lia].
  simpl. eexists. split; [reflexivity |].
  pose proof (wf2_row a j Hwf Hj) as Hrow.
  destruct Hwf as [Hlen Hrows].
  repeat split; simpl.
  - now rewrite length_set_nth.
  - apply Forall_set_nth; [assumption |]. now rewrite length_set_nth.
  - unfold get2. simpl. rewrite nth_set_nth_eq by lia.
    apply nth_set_nth_eq. lia.
  - intros j' i' Hne. unfold get2. simpl.
    destruct (Nat.eq_dec j' j) as [-> | Hjj].
    + rewrite nth_set_nth_eq by lia.
      apply nth_set_nth_ne. destruct Hne; congruence.
    + now rewrite nth_set_nth_ne.
Qed.

Lemma wf2_np_empty (uninit : nat -> nat -> R) (m n : nat) :
  wf2 (np_empty uninit m n).
Proof.
  split; simpl.
  - now rewrite length_map, length_seq.
  - apply Forall_forall. intros r Hr. apply in_map_iff in Hr.
    destruct Hr as [j [<- _]]. now rewrite length_map, length_seq.
Qed.

(** ** The two loops of function_values *)

Section EvaluatorFacts.

Context {P : Type}.

Lemma inner_loop_spec (functions : list (P -> result R)) :
  forall (values : array2) (j : nat) (point : P) (i : nat),
    wf2 values -> (j < shape0 values)%nat ->
    (i + length functions <= shape1 values)%nat ->
    match inner_loop values j point i functions with
    | Ok values' =>
        shape0 values' = shape0 values /\
        shape1 values' = shape1 values /\
        wf2 values' /\
        (forall t f, nth_error functions t = Some f ->
                     f point = Ok (get2 values' j (i + t))) /\
        (forall j' i', (j' <> j \/ i' < i)%nat ->
                       get2 values' j' i' = get2 values j' i')
    | Raise e =>
        exists t f, nth_error functions t = Some f /\
                    f point = Raise e /\
                    forall t' f', (t' < t)%nat ->
                                  nth_error functions t' = Some f' ->
                                  exists v, f' point = Ok v
    end.
Proof.
  induction functions as [| function rest IH]; intros values j point i Hwf Hj Hi.
  - simpl. split; [reflexivity |]. split; [reflexivity |].
    split; [assumption |]. split; [| reflexivity].
    intros [| t] f H; discriminate.
  - simpl in Hi. simpl. destruct (function point) as [v | e] eqn:Ef; simpl.
    + destruct (setitem2_ok values j i v Hwf Hj ltac:(lia))
        as [a' [Ea [H0 [H1 [Hwf' [Hget Hoth]]]]]].
      rewrite Ea. simpl.
      specialize (IH a' j point (S i) Hwf' ltac:(lia) ltac:(lia)).
      destruct (inner_loop a' j point (S i) rest) as [values' | e].
      * destruct IH as [I0 [I1 [Iwf [Inew Iold]]]].
        split; [congruence |]. split; [congruence |]. split; [assumption |].
        split.
        -- intros [| t] f Hf; simpl in Hf.
           ++ inversion Hf; subst f. rewrite Ef. f_equal.
              rewrite Nat.add_0_r. rewrite Iold by lia. now symmetry.
           ++ rewrite (Inew t f Hf). do 2 f_equal. lia.
        -- intros j' i' Hji. rewrite Iold by lia. apply Hoth. lia.
      * destruct IH as [t [f [Hf [Hr Hbefore]]]].
        exists (S t), f. split; [assumption |]. split; [assumption |].
        intros [| t'] f' Hlt Hf'; simpl in Hf'.
        -- inversion Hf'; subst f'. eauto.
        -- apply (Hbefore t' f'); [lia | assumption].
    + exists O, function. split; [reflexivity |]. split; [assumption |].
      intros t' f' Hlt. lia.
Qed.

Lemma outer_loop_spec (functions : list (P -> result R))
      (domain_points : list P) :
  forall (values : array2) (j : nat),
    wf2 values -> (j + length domain_points <= shape0 values)%nat ->
    (length functions <= shape1 values)%nat ->
    match outer_loop values j domain_points functions with
    | Ok values' =>
        shape0 values' = shape0 values /\
        shape1 values' = shape1 values /\
        wf2 values' /\
        (forall s p t f, nth_error domain_points s = Some p ->
                         nth_error functions t = Some f ->
                         f p = Ok (get2 values' (j + s) t)) /\
        (forall j' i', (j' < j)%nat ->
                       get2 values' j' i' = get2 values j' i')
    | Raise e =>
        exists s p t f,
          nth_error domain_points s = Some p /\
          nth_error functions t = Some f /\
          f p = Raise e /\
          calls_before_ok functions domain_points s t
    end.
Proof.
  induction domain_points as [| point rest IH]; intros values j Hwf Hj Hn.
  - simpl. split; [reflexivity |]. split; [reflexivity |].
    split; [assumption |]. split; [| reflexivity].
    intros [| s] p t f H; discriminate.
  - simpl in Hj. simpl.
    pose proof (inner_loop_spec functions values j point 0 Hwf
                                ltac:(lia) ltac:(lia)) as Hin.
    destruct (inner_loop values j point 0 functions) as [a' | e]; simpl.
    + destruct Hin as [H0 [H1 [Hwf' [Hnew Hold]]]].
      specialize (IH a' (S j) Hwf' ltac:(lia) ltac:(lia)).
      destruct (outer_loop a' (S j) rest functions) as [values' | e].
      * destruct IH as [I0 [I1 [Iwf [Inew Iold]]]].
        split; [congruence |]. split; [congruence |]. split; [assumption |].
        split.
        -- intros [| s] p t f Hp Hf; simpl in Hp.
           ++ inversion Hp; subst p. rewrite Nat.add_0_r.
              rewrite Iold by lia. apply (Hnew t f Hf).
           ++ rewrite (Inew s p t f Hp Hf). do 2 f_equal. lia.
        -- intros j' i' Hlt. rewrite Iold by lia. apply Hold. lia.
      * destruct IH as [s [p [t [f [Hp [Hf [Hr Hbefore]]]]]]].
        exists (S s), p, t, f. repeat split; try assumption.
        intros [| s'] t' p' f' Hlt Hp' Hf'; simpl in Hp'.
        -- inversion Hp'; subst p'. rewrite (Hnew t' f' Hf'). eauto.
        -- apply (Hbefore s' t' p' f'); [lia | assumption | assumption].
    + destruct Hin as [t [f [Hf [Hr Hbefore]]]].
      exists O, point, t, f. repeat split; try assumption.
      intros s' t' p' f' Hlt Hp' Hf'.
      destruct Hlt as [Hlt | [-> Hlt]]; [lia |].
      simpl in Hp'. inversion Hp'; subst p'. eauto.
Qed.

End EvaluatorFacts.

(** The array [function_values] returns, or the call that made it fail. *)
Lemma function_values_entries {P : Type} (uninit : nat -> nat -> R)
        (functions : list (P -> result R)) (domain_points : list P) :
  match function_values uninit functions domain_points with
  | Ok values =>
      shape0 values = length domain_points /\
      shape1 values = length functions /\
      wf2 values /\
      (forall j i p f, nth_error domain_points j = Some p ->
                       nth_error functions i = Some f ->
                       f p = Ok (get2 values j i))
  | Raise e =>
      exists j i p f,
        nth_error domain_points j = Some p /\
        nth_error functions i = Some f /\
        f p = Raise e /\
        calls_before_ok functions domain_points j i
  end.
Proof.
  unfold function_values.
  pose proof (outer_loop_spec functions domain_points
                (np_empty uninit (length domain_points) (length functions)) 0
                (wf2_np_empty _ _ _)) as H.
  simpl in H. specialize (H (Nat.le_refl _) (Nat.le_refl _)).
  destruct (outer_loop _ 0 domain_points functions) as [values | e].
  - destruct H as [H0 [H1 [Hwf [Hnew _]]]]. repeat split; auto.
    + apply Hwf.
    + apply Hwf.
  - destruct H as [s [p [t [f H]]]]. exists s, t, p, f. exact H.
Qed.

(** C7.  [function_values] either returns an array of shape
    (number of points, number of functions) whose entry (j, i) is the
    value of function i at point j, whatever [np.empty] found in memory,
    or raises the exception of the first call, in the order points
    outside and functions inside, that raised. *)
Theorem function_values_spec {P : Type} (uninit : nat -> nat -> R)
        (functions : list (P -> result R)) (domain_points : list P) :
  match function_values uninit functions domain_points with
  | Ok values =>
      shape0 values = length domain_points /\
      shape1 values = length functions /\
      wf2 values /\
      (forall j i p f, nth_error domain_points j = Some p ->
                       nth_error functions i = Some f ->
                       f p = Ok (get2 values j i))
  | Raise e =>
      exists j i p f,
        nth_error domain_points j = Some p /\
        nth_error functions i = Some f /\
        f p = Raise e /\
        calls_before_ok functions domain_points j i
  end.
Proof. exact (function_values_entries uninit functions domain_points). Qed.

(** ** generate_functions *)

Section GeneratorFacts.

Context {World Param Point : Type}.

Lemma sample_all_spec (n : Z) (arg_dists : list (Dist World Param)) :
  Forall (samples_n n) arg_dists ->
  forall (j : nat) (st : St World),
  exists arg_samples w',
    draws n (world st) arg_dists arg_samples w' /\
    sample_all j arg_dists n st =
    (Ok arg_samples,
     mkSt w' (calls st ++ map (fun t => (t, n)) (seq j (length arg_dists)))) /\
    Forall (fun s => length s = Z.to_nat n) arg_samples.
Proof.
  induction 1 as [| arg_dist rest Hd Hrest IH]; intros j st.
  - exists [], (world st). simpl. rewrite app_nil_r.
    split; [constructor |]. split; [| constructor].
    unfold ret. now destruct st.
  - destruct (Hd (world st)) as [s [w1 [Es Hlen]]].
    destruct (IH (S j) (mkSt w1 (calls st ++ [(j, n)])))
      as [ss [w2 [Hdraw [Eall Hall]]]].
    exists (s :: ss), w2. split; [econstructor; eassumption |].
    split; [| now constructor].
    simpl. unfold bind at 1. unfold call_sample. rewrite Es.
    unfold bind at 1. rewrite Eall. unfold ret. simpl.
    now rewrite <- app_assoc.
Qed.

Lemma collect_args_spec (arg_samples : list (list Param)) (len k : nat) :
  Forall (fun s => length s = len) arg_samples -> (k < len)%nat ->
  exists args, collect_args arg_samples k = Ok args /\
               args_at k arg_samples args.
Proof.
  intros Hall Hk. induction Hall as [| s ss Hs Hss IH].
  - exists []. split; [reflexivity | constructor].
  - destruct IH as [args [Eargs Hat]].
    destruct (nth_error s k) as [a |] eqn:Ea.
    + exists (a :: args). simpl. rewrite Ea, Eargs. simpl.
      split; [reflexivity | now constructor].
    + apply nth_error_None in Ea. lia.
Qed.

End GeneratorFacts.

(** C6.  With distributions that answer [sample(n)] with [n] values,
    [generate_functions] asks each distribution once, in order and
    before anything else, and returns [n] functions; the k-th one maps
    a point [p] to the base function applied to [p] and to the k-th
    entries of the sample sequences.  When the base function is
    constantly 1, so is every generated function. *)
Theorem generate_functions_spec {World Param Point : Type}
        (function : Point -> list Param -> result R) (n : Z)
        (arg_dists : list (Dist World Param)) (st : St World) :
  (1 <= n)%Z ->
  Forall (samples_n n) arg_dists ->
  exists arg_samples w' functions,
    draws n (world st) arg_dists arg_samples w' /\
    generate_functions function n arg_dists st =
    (Ok functions,
     mkSt w' (calls st ++ map (fun j => (j, n)) (seq 0 (length arg_dists)))) /\
    length functions = Z.to_nat n /\
    (forall k, (k < Z.to_nat n)%nat ->
       exists f args,
         nth_error functions k = Some f /\
         args_at k arg_samples args /\
         forall p, f p = function p args) /\
    ((forall p args, function p args = Ok 1) ->
     forall f p, In f functions -> f p = Ok 1).
Proof.
  intros Hn Hd.
  destruct (sample_all_spec n arg_dists Hd 0%nat st)
    as [arg_samples [w' [Hdraw [Eall Hlen]]]].
  exists arg_samples, w', (map (func function arg_samples) (seq 0 (Z.to_nat n))).
  split; [assumption |]. split.
  { unfold generate_functions, bind. rewrite Eall. reflexivity. }
  split; [now rewrite length_map, length_seq |]. split.
  - intros k Hk.
    destruct (collect_args_spec arg_samples _ k Hlen Hk) as [args [Eargs Hat]].
    exists (func function arg_samples k), args.
    split; [| split; [assumption |]].
    + rewrite nth_error_map, nth_error_seq.
      destruct (Nat.ltb_spec k (Z.to_nat n)); [reflexivity | lia].
    + intros p. unfold func. now rewrite Eargs.
  - intros Hconst f p Hf. apply in_map_iff in Hf.
    destruct Hf as [k [<- Hk]]. apply in_seq in Hk.
    destruct (collect_args_spec arg_samples _ k Hlen ltac:(lia))
      as [args [Eargs _]].
    unfold func. rewrite Eargs. simpl. apply Hconst.
Qed.

(** ** Dot products *)

Lemma dotv_nil_r (u : list R) : dotv u [] = 0.
Proof. destruct u; reflexivity. Qed.

Lemma dotv_comm (u v : list R) : dotv u v = dotv v u.
Proof.
  revert v. induction u as [| x u IH]; intros [| y v]; simpl; try reflexivity.
  rewrite IH. ring.
Qed.

Lemma dotv_map_add {A} (u : list R) (f g : A -> R) (l : list A) :
  dotv u (map (fun t => f t + g t) l) = dotv u (map f l) + dotv u (map g l).
Proof.
  revert u. induction l as [| a l IH]; intros [| x u]; simpl; try ring.
  rewrite IH. ring.
Qed.

Lemma dotv_map_scale {A} (u : list R) (f : A -> R) (k : R) (l : list A) :
  dotv u (map (fun t => f t * k) l) = dotv u (map f l) * k.
Proof.
  revert u. induction l as [| a l IH]; intros [| x u]; simpl; try ring.
  rewrite IH. ring.
Qed.

Lemma dotv_map_zero {A} (u : list R) (l : list A) :
  dotv u (map (fun _ => 0) l) = 0.
Proof.
  revert u. induction l as [| a l IH]; intros [| x u]; simpl; try ring.
  rewrite IH. ring.
Qed.

Lemma dotv_div (u v : list R) (s : R) :
  s <> 0 ->
  dotv (map (fun x => x / s) u) (map (fun x => x / s) v) = dotv u v / (s * s).
Proof.
  intros Hs. revert v. induction u as [| x u IH]; intros [| y v]; simpl;
    try (unfold Rdiv; ring).
  rewrite IH. field. assumption.
Qed.

(** The dot product with the [j]-th unit vector picks the [j]-th entry. *)
Lemma dotv_unit (u : list R) (j : nat) :
  forall k,
    dotv u (map (fun t => if (t =? j)%nat then 1 else 0) (seq k (length u))) =
    if (k <=? j)%nat then nth (j - k) u 0 else 0.
Proof.
  induction u as [| x u IH]; intros k; simpl.
  - destruct (k <=? j)%nat; [now destruct (j - k)%nat | reflexivity].
  - rewrite IH. destruct (Nat.eqb_spec k j) as [-> | Hne].
    + rewrite Nat.sub_diag. destruct (Nat.leb_spec (S j) j); [lia |].
      rewrite Nat.leb_refl. ring.
    + destruct (Nat.leb_spec (S k) j); destruct (Nat.leb_spec k j); try lia.
      * replace (j - k)%nat with (S (j - S k)) by lia. ring.
      * ring.
Qed.

Lemma map_nth_seq (r : list R) :
  map (fun t => nth t r 0) (seq 0 (length r)) = r.
Proof.
  apply nth_ext with (d := 0) (d' := 0).
  - now rewrite length_map, length_seq.
  - intros t Ht. rewrite length_map, length_seq in Ht.
    rewrite (nth_indep _ 0 (nth 0 r 0)) by now rewrite length_map, length_seq.
    rewrite (map_nth (fun t => nth t r 0)). now rewrite seq_nth.
Qed.

Lemma map_seq_ext {A} (f g : nat -> A) (n : nat) :
  map f (seq 0 n) = map g (seq 0 n) ->
  forall i, (i < n)%nat -> f i = g i.
Proof.
  intros H i Hi. rewrite map_ext_in_iff in H. apply H.
  apply in_seq. lia.
Qed.

(** Projecting a combination of the rows: the double sum, exchanged. *)
Lemma dotv_rows_exchange (rows : list (list R)) (cv : list R) (j : nat) :
  Forall (fun r => length r = length cv) rows ->
  dotv (map (fun r => dotv r cv) rows) (col j rows) =
  dotv cv (map (fun t => dotv (col t rows) (col j rows))
               (seq 0 (length cv))).
Proof.
  induction 1 as [| r rest Hr Hrest IH]; simpl.
  - now rewrite dotv_map_zero.
  - rewrite IH. rewrite dotv_map_add, dotv_map_scale.
    rewrite <- Hr at 2. rewrite map_nth_seq. rewrite (dotv_comm cv r). ring.
Qed.

(** ** Arrays built by the model are well formed *)

Lemma vstack_wf (rows : list (list R)) (g : array2) :
  vstack rows = Ok g -> wf2 g /\ items g = rows.
Proof.
  destruct rows as [| r rest]; [discriminate |]. unfold vstack.
  destruct (forallb _ rest) eqn:E; [| discriminate].
  intros H. inversion H; subst g; clear H. split; [| reflexivity].
  split; [reflexivity |]. simpl. constructor; [reflexivity |].
  rewrite forallb_forall in E. apply Forall_forall. intros r' Hr'.
  apply Nat.eqb_eq. now apply E.
Qed.

Lemma uniform_cube_wf (domain_dim : Z) (radius d : R) (g : array2) :
  uniform_cube domain_dim radius d = Ok g -> wf2 g.
Proof.
  unfold uniform_cube. destruct (domain_dim =? 1)%Z.
  - destruct (arange (- radius) radius d) as [pts | e]; [| discriminate].
    simpl. intros H. inversion H; subst g; clear H. split; simpl.
    + now rewrite length_map.
    + apply Forall_forall. intros r Hr. apply in_map_iff in Hr.
      now destruct Hr as [x [<- _]].
  - destruct (arange (- radius) radius d) as [axis | e]; [| discriminate].
    simpl. intros H. now apply vstack_wf in H.
Qed.

Lemma wf2_slice_cols (a : array2) (k : Z) : wf2 a -> wf2 (slice_cols a k).
Proof.
  intros [Hlen Hrows]. split; simpl.
  - now rewrite length_map.
  - rewrite Forall_forall in *. intros r Hr. apply in_map_iff in Hr.
    destruct Hr as [r0 [<- Hr0]]. rewrite length_firstn, (Hrows r0 Hr0).
    unfold slice_stop. destruct (Z.ltb_spec k 0); lia.
Qed.

Lemma wf2_div_scalar (a : array2) (s : R) : wf2 a -> wf2 (div_scalar a s).
Proof.
  intros [Hlen Hrows]. split; simpl.
  - now rewrite length_map.
  - rewrite Forall_forall in *. intros r Hr. apply in_map_iff in Hr.
    destruct Hr as [r0 [<- Hr0]]. rewrite length_map. now apply Hrows.
Qed.

Lemma slice_stop_in_range (k : Z) (len : nat) :
  (0 <= k <= Z.of_nat len)%Z -> slice_stop k len = Z.to_nat k.
Proof.
  intros H. unfold slice_stop. destruct (Z.ltb_spec k 0); lia.
Qed.

(** ** The constructor *)

Lemma init_inv {World Param : Type} svd uninit
      (fn : list R -> list Param -> result R) (domain_dim : Z)
      (dist_args : list (Dist World Param)) (n_functions nb : Z)
      (d radius : R) (st st' : St World) (fs : Function_Space) :
  init svd uninit fn domain_dim dist_args n_functions nb d radius st
  = (Ok fs, st') ->
  exists functions V,
    uniform_cube domain_dim radius d = Ok (domain fs) /\
    function_values uninit functions (items (domain fs)) = Ok (fns fs) /\
    dx fs = d ^ shape1 (domain fs) /\
    n_basis fs = nb /\
    svd (fns fs) = Ok (U fs, S_ fs, V) /\
    basis fs = div_scalar (slice_cols (U fs) nb) (sqrt (dx fs)).
Proof.
  unfold init, bind, lift, ret.
  destruct (uniform_cube domain_dim radius d) as [dom | e]; [| discriminate].
  destruct (generate_functions fn n_functions dist_args st)
    as [[functions | e] st1]; [| discriminate].
  destruct (function_values uninit functions (items dom)) as [vals | e] eqn:Ev;
    [| discriminate].
  destruct (svd vals) as [[[u sv] v] | e] eqn:Es; [| discriminate].
  intros H. inversion H; subst; clear H. simpl.
  exists functions, v. repeat split; assumption.
Qed.

Lemma init_shapes {World Param : Type} svd uninit
      (fn : list R -> list Param -> result R) (domain_dim : Z)
      (dist_args : list (Dist World Param)) (n_functions nb : Z)
      (d radius : R) (st st' : St World) (fs : Function_Space) :
  init svd uninit fn domain_dim dist_args n_functions nb d radius st
  = (Ok fs, st') ->
  wf2 (domain fs) /\ wf2 (fns fs) /\ shape0 (fns fs) = n_points fs.
Proof.
  intros H. apply init_inv in H.
  destruct H as [functions [V [Hdom [Hfns _]]]].
  pose proof (uniform_cube_wf _ _ _ _ Hdom) as Hwf.
  pose proof (function_values_entries uninit functions (items (domain fs)))
    as Hv.
  rewrite Hfns in Hv. destruct Hv as [H0 [H1 [Hwfv _]]].
  repeat split; try apply Hwf; try apply Hwfv.
  unfold n_points. rewrite H0. apply Hwf.
Qed.

Lemma reachable_inv (fs0 fs : Function_Space) :
  basis fs0 = div_scalar (slice_cols (U fs0) (n_basis fs0)) (sqrt (dx fs0)) ->
  reachable fs0 fs ->
  domain fs = domain fs0 /\ fns fs = fns fs0 /\ dx fs = dx fs0 /\
  U fs = U fs0 /\ S_ fs = S_ fs0 /\
  basis fs = div_scalar (slice_cols (U fs) (n_basis fs)) (sqrt (dx fs)).
Proof.
  intros H0. induction 1 as [| fs k Hr IH].
  - repeat split; assumption.
  - destruct IH as [? [? [? [? [? ?]]]]]. simpl. repeat split; assumption.
Qed.

(** ** Orthonormality *)

Lemma nth_map_div (s : R) (l : list R) (i : nat) :
  nth i (map (fun x => x / s) l) 0 = nth i l 0 / s.
Proof.
  revert i. induction l as [| x l IH]; intros [| i]; simpl;
    try (unfold Rdiv; ring); auto.
Qed.

Lemma col_basis (u : array2) (c i : nat) (s : R) :
  (i < c)%nat ->
  col i (map (map (fun y => y / s)) (map (firstn c) (items u))) =
  map (fun x => x / s) (col i (items u)).
Proof.
  intros Hi. unfold col. rewrite !map_map. apply map_ext. intros r.
  rewrite nth_map_div, nth_firstn.
  destruct (Nat.ltb_spec i c); [reflexivity | lia].
Qed.

Lemma gram_ok (a : array2) :
  np_dot (A2 (transpose a)) (A2 a) =
  Ok (A2 (mk2 (shape1 a) (shape1 a)
              (map (fun i => map (fun j => dotv (col i (items a))
                                                (col j (items a)))
                                 (seq 0 (shape1 a)))
                   (seq 0 (shape1 a))))).
Proof.
  unfold np_dot, transpose. simpl. rewrite Nat.eqb_refl, map_map. reflexivity.
Qed.

Lemma unitary_entries (a u : array2) (i j : nat) :
  svd_left_unitary a u -> (i < shape1 u)%nat -> (j < shape1 u)%nat ->
  dotv (col i (items u)) (col j (items u)) = if (i =? j)%nat then 1 else 0.
Proof.
  intros [_ [_ [H1 Hg]]] Hi Hj. rewrite gram_ok in Hg.
  unfold identity in Hg. rewrite <- H1 in Hg.
  inversion Hg as [Hrows]. clear Hg.
  apply map_seq_ext with (i := i) in Hrows; [| assumption].
  apply map_seq_ext with (i := j) in Hrows; assumption.
Qed.

(** The Gram entries of [u[:, :k] / sqrt(dx)], weighted by [dx]. *)
Lemma basis_gram_entry (a u : array2) (dxv : R) (c i j : nat) :
  svd_left_unitary a u -> 0 < dxv ->
  (c <= shape1 u)%nat -> (i < c)%nat -> (j < c)%nat ->
  let rows := map (map (fun y => y / sqrt dxv)) (map (firstn c) (items u)) in
  dotv (col i rows) (col j rows) * dxv = if (i =? j)%nat then 1 else 0.
Proof.
  intros Hu Hdx Hc Hi Hj rows. unfold rows.
  rewrite !col_basis by assumption.
  assert (Hs : sqrt dxv <> 0).
  { pose proof (sqrt_lt_R0 dxv Hdx). lra. }
  rewrite dotv_div by assumption.
  rewrite sqrt_sqrt by lra.
  rewrite (unitary_entries a u i j Hu) by lia.
  field. lra.
Qed.

(** A space whose basis is the scaled slice of a unitary [U]. *)
Lemma gram_dx_identity (a : array2) (fs : Function_Space) :
  basis fs = div_scalar (slice_cols (U fs) (n_basis fs)) (sqrt (dx fs)) ->
  svd_left_unitary a (U fs) -> 0 < dx fs ->
  (0 <= n_basis fs <= Z.of_nat (shape1 (U fs)))%Z ->
  gram_dx fs = Ok (A2 (identity (Z.to_nat (n_basis fs)))).
Proof.
  intros Hb Hu Hdx Hk. unfold gram_dx. rewrite gram_ok, Hb. simpl.
  rewrite slice_stop_in_range by assumption.
  set (c := Z.to_nat (n_basis fs)).
  unfold identity. do 3 f_equal. rewrite map_map.
  apply map_ext_in. intros i Hi. apply in_seq in Hi.
  rewrite map_map. apply map_ext_in. intros j Hj. apply in_seq in Hj.
  apply (basis_gram_entry a (U fs) (dx fs) c i j); try assumption; lia.
Qed.

(** What holds of a constructed space in every state it reaches. *)
Lemma constructed_state {World Param : Type} svd uninit
      (fn : list R -> list Param -> result R) (domain_dim : Z)
      (dist_args : list (Dist World Param)) (n_functions nb : Z)
      (d radius : R) (st st' : St World) (fs0 fs : Function_Space) :
  init svd uninit fn domain_dim dist_args n_functions nb d radius st
  = (Ok fs0, st') ->
  svd_left_unitary (fns fs0) (U fs0) ->
  reachable fs0 fs ->
  basis fs = div_scalar (slice_cols (U fs) (n_basis fs)) (sqrt (dx fs)) /\
  svd_left_unitary (fns fs0) (U fs) /\ (0 < d -> 0 < dx fs) /\
  shape1 (U fs) = n_points fs /\ shape0 (U fs) = n_points fs.
Proof.
  intros Hinit Hu Hr.
  pose proof (init_shapes _ _ _ _ _ _ _ _ _ _ _ _ Hinit) as [_ [_ Hsh]].
  apply init_inv in Hinit.
  destruct Hinit as [functions [V [_ [_ [Hdx [Hnb [_ Hb]]]]]]].
  rewrite <- Hnb in Hb.
  destruct (reachable_inv fs0 fs Hb Hr) as [Hdom [_ [Hdx' [HU [_ Hb']]]]].
  split; [assumption |]. split; [now rewrite HU |].
  split; [intros Hd; rewrite Hdx', Hdx; now apply pow_lt |].
  unfold n_points in *. rewrite HU, Hdom.
  destruct Hu as [_ [H0 [H1 _]]]. split; congruence.
Qed.

(** ** Projection after reconstruction *)

Lemma project_reconstruct (a : array2) (fs : Function_Space) (cv : list R) :
  basis fs = div_scalar (slice_cols (U fs) (n_basis fs)) (sqrt (dx fs)) ->
  svd_left_unitary a (U fs) -> 0 < dx fs ->
  (0 <= n_basis fs <= Z.of_nat (shape1 (U fs)))%Z ->
  length cv = Z.to_nat (n_basis fs) ->
  exists signal,
    reconstruct fs (A1 cv) = Ok signal /\
    signal_coeffs fs signal = Ok (A1 cv).
Proof.
  intros Hb Hu Hdx Hk Hlen.
  assert (Hwf : wf2 (basis fs)).
  { rewrite Hb. apply wf2_div_scalar, wf2_slice_cols, Hu. }
  assert (Hs1 : shape1 (basis fs) = length cv).
  { rewrite Hb. simpl. rewrite slice_stop_in_range by assumption. now symmetry. }
  exists (A1 (map (fun r => dotv r cv) (items (basis fs)))). split.
  { unfold reconstruct, np_dot. rewrite Hs1, Nat.eqb_refl. reflexivity. }
  assert (Hv : map (fun y => y * dx fs)
                   (map (fun j => dotv (map (fun r => dotv r cv)
                                            (items (basis fs)))
                                       (col j (items (basis fs))))
                        (seq 0 (shape1 (basis fs)))) = cv).
  { rewrite map_map, Hs1.
    transitivity (map (fun t => nth t cv 0) (seq 0 (length cv)));
      [| apply map_nth_seq].
    apply map_ext_in. intros j Hj. apply in_seq in Hj.
    rewrite dotv_rows_exchange
      by (destruct Hwf as [_ Hrows]; now rewrite <- Hs1).
    rewrite <- dotv_map_scale.
    rewrite (map_ext_in _ (fun t => if (t =? j)%nat then 1 else 0)).
    - rewrite dotv_unit. simpl. now rewrite Nat.sub_0_r.
    - intros t Ht. apply in_seq in Ht. rewrite Hb. simpl.
      rewrite slice_stop_in_range by assumption.
      apply (basis_gram_entry a (U fs) (dx fs)); try assumption; lia. }
  unfold signal_coeffs. simpl T. unfold np_dot.
  rewrite length_map. destruct Hwf as [Hrows _]. rewrite Hrows, Nat.eqb_refl.
  simpl. rewrite Hv.
  destruct (Nat.eqb_spec (length cv) 1) as [E | _]; [| reflexivity].
  unfold reshape1. simpl.
  replace (n_basis fs =? Z.of_nat (length cv))%Z with true
    by (symmetry; apply Z.eqb_eq; lia).
  now rewrite orb_true_r.
Qed.

(** C4, amended.  In a space constructed on the line ([domain_dim = 1],
    where [dx = d]), as constructed and after any [select_top_basis]
    calls, when [np.linalg.svd] returned a unitary [U], the step [d] is
    positive and [n_basis] lies between 0 and the number of columns of
    [U], [reconstruct] accepts every coefficient vector of length
    [n_basis] and [signal_coeffs] of the signal gives the vector back. *)
Theorem round_trip {World Param : Type} svd uninit
        (fn : list R -> list Param -> result R)
        (dist_args : list (Dist World Param)) (n_functions nb : Z)
        (d radius : R) (st st' : St World) (fs0 fs : Function_Space)
        (c : list R) :
  init svd uninit fn 1 dist_args n_functions nb d radius st
  = (Ok fs0, st') ->
  svd_left_unitary (fns fs0) (U fs0) -> 0 < d ->
  reachable fs0 fs ->
  (0 <= n_basis fs <= Z.of_nat (shape1 (U fs)))%Z ->
  length c = Z.to_nat (n_basis fs) ->
  dx fs = d /\
  exists signal,
    reconstruct fs (A1 c) = Ok signal /\
    signal_coeffs fs signal = Ok (A1 c).
Proof.
  intros Hinit Hu Hd Hr Hk Hlen.
  destruct (constructed_state _ _ _ _ _ _ _ _ _ _ _ _ _ Hinit Hu Hr)
    as [Hb [Hu' [Hdx _]]].
  split; [| apply (project_reconstruct (fns fs0)); auto].
  pose proof Hinit as Hinv. apply init_inv in Hinv.
  destruct Hinv as [functions [V [Hdom [_ [Hdx0 [Hnb [_ Hb0]]]]]]].
  rewrite <- Hnb in Hb0.
  destruct (reachable_inv fs0 fs Hb0 Hr) as [_ [_ [Hdx' _]]].
  rewrite uniform_cube_1 in Hdom by lra.
  inversion Hdom as [Hg]. rewrite Hdx', Hdx0, <- Hg. simpl. ring.
Qed.

(** ** select_top_basis *)

Lemma slice_cols_twice (u : array2) (k nb : Z) (s : R) :
  (0 <= k <= nb)%Z ->
  slice_cols (div_scalar (slice_cols u nb) s) k =
  div_scalar (slice_cols u k) s.
Proof.
  intros Hk. unfold slice_cols, div_scalar. simpl.
  assert (E : slice_stop k (slice_stop nb (shape1 u)) = slice_stop k (shape1 u)).
  { unfold slice_stop. destruct (Z.ltb_spec k 0); destruct (Z.ltb_spec nb 0); lia. }
  rewrite E. f_equal. rewrite !map_map. apply map_ext. intros r.
  rewrite firstn_map, firstn_firstn. do 2 f_equal.
  unfold slice_stop. destruct (Z.ltb_spec k 0); destruct (Z.ltb_spec nb 0); lia.
Qed.

Lemma slice_cols_of_basis (u : array2) (k nb : Z) (s : R) :
  (0 <= k)%Z ->
  (Nat.min (Z.to_nat k) (shape1 u) <= slice_stop nb (shape1 u))%nat ->
  slice_cols (div_scalar (slice_cols u nb) s) k =
  div_scalar (slice_cols u k) s.
Proof.
  intros Hk Hw. unfold slice_cols, div_scalar. simpl.
  assert (Hc0 : (slice_stop nb (shape1 u) <= shape1 u)%nat).
  { unfold slice_stop. destruct (Z.ltb_spec nb 0); lia. }
  assert (Ek : forall len, slice_stop k len = Nat.min (Z.to_nat k) len).
  { intros len. unfold slice_stop. destruct (Z.ltb_spec k 0); [lia | reflexivity]. }
  assert (E : slice_stop k (slice_stop nb (shape1 u)) = slice_stop k (shape1 u)).
  { rewrite !Ek. lia. }
  rewrite E. f_equal. rewrite !map_map. apply map_ext. intros r.
  rewrite firstn_map, firstn_firstn. do 2 f_equal.
  rewrite Ek. lia.
Qed.

(** C5, amended.  After [select_top_basis(k)] for any integer [k], in any
    state the constructed space has reached, [get_basis()] is
    [U[:, :k] / sqrt(dx)] on the stored [U], [singular_values()] and the
    fields domain, fns, dx, U and S are as they were, and [n_basis] is
    [k].  For [k >= 0], [get_basis()] is the first [k] columns of the
    basis computed at construction exactly when [min(k, U.shape[1])] is
    at most the number of columns of that basis. *)
Theorem select_top_basis_frame {World Param : Type} svd uninit
        (fn : list R -> list Param -> result R) (domain_dim : Z)
        (dist_args : list (Dist World Param)) (n_functions nb : Z)
        (d radius : R) (st st' : St World) (fs0 fs1 : Function_Space)
        (k : Z) :
  init svd uninit fn domain_dim dist_args n_functions nb d radius st
  = (Ok fs0, st') ->
  reachable fs0 fs1 ->
  let fs := select_top_basis fs1 k in
  let width0 := Z.of_nat (shape1 (get_basis fs0)) in
  let kept := Z.min k (Z.of_nat (shape1 (U fs0))) in
  get_basis fs = div_scalar (slice_cols (U fs0) k) (sqrt (dx fs0)) /\
  singular_values fs = singular_values fs0 /\
  domain fs = domain fs0 /\ fns fs = fns fs0 /\ dx fs = dx fs0 /\
  U fs = U fs0 /\ S_ fs = S_ fs0 /\ n_basis fs = k /\
  ((0 <= k)%Z -> (kept <= width0)%Z ->
   get_basis fs = slice_cols (get_basis fs0) k) /\
  ((0 <= k)%Z -> (width0 < kept)%Z ->
   get_basis fs <> slice_cols (get_basis fs0) k).
Proof.
  intros Hinit Hr fs width0 kept. apply init_inv in Hinit.
  destruct Hinit as [functions [V [_ [_ [_ [Hnb [_ Hb]]]]]]].
  assert (Hb0 : basis fs0 =
                div_scalar (slice_cols (U fs0) (n_basis fs0)) (sqrt (dx fs0)))
    by now rewrite Hnb.
  destruct (reachable_inv fs0 fs1 Hb0 Hr) as [Hdom [Hfns [Hdx [HU [HS _]]]]].
  assert (Hnew : get_basis fs =
                 div_scalar (slice_cols (U fs0) k) (sqrt (dx fs0))).
  { unfold fs, get_basis. simpl. now rewrite HU, Hdx. }
  assert (Ek : forall len, (0 <= k)%Z ->
                           slice_stop k len = Nat.min (Z.to_nat k) len).
  { intros len Hk. unfold slice_stop.
    destruct (Z.ltb_spec k 0); [lia | reflexivity]. }
  assert (Hw0 : shape1 (get_basis fs0) = slice_stop nb (shape1 (U fs0))).
  { unfold get_basis. now rewrite Hb. }
  split; [exact Hnew |].
  split; [exact HS |]. split; [exact Hdom |]. split; [exact Hfns |].
  split; [exact Hdx |]. split; [exact HU |]. split; [exact HS |].
  split; [reflexivity |].
  split; intros Hk Hcmp.
  - rewrite Hnew. unfold get_basis. rewrite Hb. symmetry.
    apply slice_cols_of_basis; [assumption |].
    unfold width0, kept in Hcmp. rewrite Hw0 in Hcmp. lia.
  - intros Heq. apply (f_equal shape1) in Heq. rewrite Hnew in Heq.
    simpl in Heq. unfold width0, kept in Hcmp. rewrite !Ek in Heq by assumption.
    lia.
Qed.

(** C10.  [select_top_basis(k)] with [k >= 0] is defined on every
    space: it stores [k] in [n_basis] and a basis of
    [min(k, U.shape[1])] columns, so that beyond the columns of [U] the
    field [n_basis] and the width of the basis differ. *)
Theorem select_top_basis_out_of_range (self : Function_Space) (k : Z) :
  (0 <= k)%Z ->
  let fs := select_top_basis self k in
  n_basis fs = k /\
  shape0 (basis fs) = shape0 (U self) /\
  Z.of_nat (shape1 (basis fs)) = Z.min k (Z.of_nat (shape1 (U self))) /\
  (wf2 (U self) -> wf2 (basis fs)) /\
  ((Z.of_nat (shape1 (U self)) < k)%Z ->
   shape1 (basis fs) = shape1 (U self) /\
   n_basis fs <> Z.of_nat (shape1 (basis fs))).
Proof.
  intros Hk fs. unfold fs. simpl.
  assert (E : slice_stop k (shape1 (U self)) =
              Nat.min (Z.to_nat k) (shape1 (U self))).
  { unfold slice_stop. destruct (Z.ltb_spec k 0); [lia | reflexivity]. }
  split; [reflexivity |]. split; [reflexivity |].
  split; [rewrite E; lia |].
  split; [intros Hwf; now apply wf2_div_scalar, wf2_slice_cols |].
  intros Hlt. rewrite E. split; lia.
Qed.

(** ** signal_coeffs and shapes *)

Lemma signal_coeffs_vector (fs : Function_Space) (v : list R) :
  n_basis fs = Z.of_nat (shape1 (basis fs)) ->
  length v = shape0 (basis fs) ->
  exists w, signal_coeffs fs (A1 v) = Ok (A1 w) /\
            length w = shape1 (basis fs).
Proof.
  intros Hn Hv.
  exists (map (fun y => y * dx fs)
              (map (fun j => dotv v (col j (items (basis fs))))
                   (seq 0 (shape1 (basis fs))))).
  split; [| now rewrite !length_map, length_seq].
  unfold signal_coeffs. simpl T. unfold np_dot. rewrite Hv, Nat.eqb_refl.
  simpl. rewrite !length_map, length_seq.
  destruct (Nat.eqb_spec (shape1 (basis fs)) 1) as [E | _]; [| reflexivity].
  unfold reshape1. simpl. rewrite !length_map, length_seq.
  replace (n_basis fs =? Z.of_nat (shape1 (basis fs)))%Z with true
    by (symmetry; now apply Z.eqb_eq).
  now rewrite orb_true_r.
Qed.

Lemma signal_coeffs_matrix (fs : Function_Space) (a : array2) :
  n_basis fs = Z.of_nat (shape1 (basis fs)) ->
  shape0 a = shape0 (basis fs) ->
  let rows :=
    map (map (fun y => y * dx fs))
        (map (fun r => map (fun j => dotv r (col j (items (basis fs))))
                           (seq 0 (shape1 (basis fs))))
             (items (transpose a))) in
  signal_coeffs fs (A2 a) =
  if (shape1 a =? 1)%nat then Ok (A1 (concat rows))
  else Ok (A2 (mk2 (shape1 a) (shape1 (basis fs)) rows)).
Proof.
  intros Hn Ha rows. unfold signal_coeffs. simpl T. unfold np_dot.
  replace (shape1 (transpose a) =? shape0 (basis fs))%nat with true
    by (symmetry; apply Nat.eqb_eq; simpl; assumption).
  subst rows. simpl.
  destruct (Nat.eqb_spec (shape1 a) 1) as [E | _]; [| reflexivity].
  unfold reshape1. simpl. rewrite E, Nat.mul_1_l.
  replace (n_basis fs =? Z.of_nat (shape1 (basis fs)))%Z with true
    by (symmetry; now apply Z.eqb_eq).
  now rewrite orb_true_r.
Qed.

Lemma uniform_cube_1_inv (radius d : R) (g : array2) :
  uniform_cube 1 radius d = Ok g ->
  exists axis,
    arange (- radius) radius d = Ok axis /\
    g = mk2 (length axis) 1 (map (fun x => [x]) axis).
Proof.
  unfold uniform_cube. simpl.
  destruct (arange (- radius) radius d) as [axis | e]; [| discriminate].
  simpl. intros H. inversion H. now exists axis.
Qed.

Lemma constructed_shape {World Param : Type} svd uninit
      (fn : list R -> list Param -> result R) (domain_dim : Z)
      (dist_args : list (Dist World Param)) (n_functions nb : Z)
      (d radius : R) (st st' : St World) (fs0 fs : Function_Space) :
  init svd uninit fn domain_dim dist_args n_functions nb d radius st
  = (Ok fs0, st') ->
  svd_shape (fns fs0) (U fs0) ->
  reachable fs0 fs ->
  basis fs = div_scalar (slice_cols (U fs) (n_basis fs)) (sqrt (dx fs)) /\
  domain fs = domain fs0 /\
  wf2 (U fs) /\ shape0 (U fs) = n_points fs /\ shape1 (U fs) = n_points fs.
Proof.
  intros Hinit [Hwf [H0 H1]] Hr.
  pose proof (init_shapes _ _ _ _ _ _ _ _ _ _ _ _ Hinit) as [_ [_ Hsh]].
  apply init_inv in Hinit.
  destruct Hinit as [functions [V [_ [_ [_ [Hnb [_ Hb]]]]]]].
  rewrite <- Hnb in Hb.
  destruct (reachable_inv fs0 fs Hb Hr) as [Hdom [_ [_ [HU [_ Hb']]]]].
  split; [assumption |]. split; [assumption |].
  unfold n_points in *. rewrite HU, Hdom. repeat split; try apply Hwf; congruence.
Qed.

(** C9, amended.  In a space constructed on the line ([domain_dim = 1],
    where the rows of the domain array are the grid points), as
    constructed and after any [select_top_basis] calls, with [n_basis]
    between 0 and the number of columns of [U]: [signal_coeffs] of a
    vector of [n_points] entries is a vector of [n_basis] entries; of an
    array of shape (n_points, m) it is an array of shape (m, n_basis)
    when [m] is not 1, and a vector of [n_basis] entries when [m] is 1;
    the reshape to a vector is made when the leading dimension of the
    product is 1 and not otherwise. *)
Theorem signal_coeffs_squeeze {World Param : Type} svd uninit
        (fn : list R -> list Param -> result R)
        (dist_args : list (Dist World Param)) (n_functions nb : Z)
        (d radius : R) (st st' : St World) (fs0 fs : Function_Space) :
  init svd uninit fn 1 dist_args n_functions nb d radius st
  = (Ok fs0, st') ->
  svd_shape (fns fs0) (U fs0) ->
  reachable fs0 fs ->
  (0 <= n_basis fs <= Z.of_nat (shape1 (U fs)))%Z ->
  (exists axis, arange (- radius) radius d = Ok axis /\
                n_points fs = length axis) /\
  (forall v, length v = n_points fs ->
     exists w, signal_coeffs fs (A1 v) = Ok (A1 w) /\
               Z.of_nat (length w) = n_basis fs) /\
  (forall a, shape0 a = n_points fs -> shape1 a <> 1%nat ->
     exists c, signal_coeffs fs (A2 a) = Ok (A2 c) /\
               shape0 c = shape1 a /\
               Z.of_nat (shape1 c) = n_basis fs /\ wf2 c) /\
  (forall a, shape0 a = n_points fs -> shape1 a = 1%nat ->
     exists w, signal_coeffs fs (A2 a) = Ok (A1 w) /\
               Z.of_nat (length w) = n_basis fs) /\
  (forall signal p s0,
     np_dot (T signal) (A2 (basis fs)) = Ok p ->
     shape_0 (mul_scalar p (dx fs)) = Ok s0 ->
     (s0 = 1%nat ->
      signal_coeffs fs signal = reshape1 (mul_scalar p (dx fs)) (n_basis fs)) /\
     (s0 <> 1%nat -> signal_coeffs fs signal = Ok (mul_scalar p (dx fs)))).
Proof.
  intros Hinit Hu Hr Hk.
  destruct (constructed_shape _ _ _ _ _ _ _ _ _ _ _ _ _ Hinit Hu Hr)
    as [Hb [Hdom [_ [H0 _]]]].
  assert (Hs1 : Z.of_nat (shape1 (basis fs)) = n_basis fs).
  { rewrite Hb. simpl. rewrite slice_stop_in_range by assumption. lia. }
  assert (Hs0 : shape0 (basis fs) = n_points fs) by (rewrite Hb; exact H0).
  split; [| split; [| split; [| split]]].
  - apply init_inv in Hinit.
    destruct Hinit as [functions [V [Hcube _]]].
    apply uniform_cube_1_inv in Hcube. destruct Hcube as [axis [Ha Hg]].
    exists axis. split; [assumption |].
    unfold n_points. now rewrite Hdom, Hg.
  - intros v Hv.
    destruct (signal_coeffs_vector fs v) as [w [Ew Hw]]; try congruence.
    exists w. split; [assumption | congruence].
  - intros a Ha Hm.
    rewrite signal_coeffs_matrix by congruence.
    destruct (Nat.eqb_spec (shape1 a) 1) as [E | _]; [contradiction |].
    eexists. split; [reflexivity |]. simpl.
    split; [reflexivity |]. split; [assumption |]. split; simpl.
    + now rewrite !length_map, length_seq.
    + apply Forall_forall. intros r Hr'. apply in_map_iff in Hr'.
      destruct Hr' as [r1 [<- Hr1]]. apply in_map_iff in Hr1.
      destruct Hr1 as [r2 [<- _]]. now rewrite !length_map, length_seq.
  - intros a Ha Hm.
    rewrite signal_coeffs_matrix by congruence.
    rewrite Hm. simpl. eexists. split; [reflexivity |].
    rewrite Hm. simpl. rewrite app_nil_r, !length_map, length_seq. assumption.
  - intros signal p s0 Hp Hs. unfold signal_coeffs. rewrite Hp. simpl.
    rewrite Hs. simpl.
    split; intros E; [subst s0; reflexivity |].
    destruct (Nat.eqb_spec s0 1); [contradiction | reflexivity].
Qed.

(** ** The grid of uniform_cube *)



Lemma mesh_coords_range (ndim : nat) (radius d x : R) :
  0 < d -> In x (concat (mesh_rows ndim (ticks radius d))) ->
  - radius <= x < radius.
Proof.
  intros Hd Hx. apply in_concat in Hx. destruct Hx as [row [Hrow Hx]].
  unfold mesh_rows in Hrow. apply in_map_iff in Hrow.
  destruct Hrow as [k [<- _]]. apply In_ravel_axis in Hx.
  now apply (ticks_range radius d).
Qed.



(** ** The volume element on a mesh *)

(** In dimension above 1 the exponent of [dx] is the number of columns of
    the domain array, which is the number of grid points. *)
Lemma dx_mesh {World Param : Type} svd uninit
      (fn : list R -> list Param -> result R) (domain_dim : Z)
      (dist_args : list (Dist World Param)) (n_functions nb : Z)
      (d radius : R) (st st' : St World) (fs : Function_Space) :
  init svd uninit fn domain_dim dist_args n_functions nb d radius st
  = (Ok fs, st') ->
  (1 < domain_dim)%Z -> d <> 0 ->
  shape0 (domain fs) = Z.to_nat domain_dim /\
  dx fs = d ^ (n_ticks radius d ^ Z.to_nat domain_dim).
Proof.
  intros H Hdim Hd. apply init_inv in H.
  destruct H as [functions [V [Hdom [_ [Hdx _]]]]].
  rewrite uniform_cube_mesh in Hdom by assumption.
  inversion Hdom as [Hg]. rewrite Hdx, <- Hg. simpl. split; reflexivity.
Qed.

(** ** The examples *)

Lemma n_ticks_1_1 : n_ticks 1 1 = 2%nat.
Proof. unfold n_ticks. rewrite (Rceil_unique 2); [reflexivity | lra]. Qed.

Lemma n_ticks_1_half : n_ticks 1 (1 / 2) = 4%nat.
Proof. unfold n_ticks. rewrite (Rceil_unique 4); [reflexivity | lra]. Qed.


Lemma ex_cube : uniform_cube 1 1 1 = Ok ex_domain.
Proof.
  rewrite uniform_cube_1 by lra. unfold ticks. rewrite n_ticks_1_1.
  reflexivity.
Qed.

Lemma ex_init :
  init (World := unit) (Param := R) svd0 zeros fn0 1 [] 1 1 1 1 st0
  = (Ok fs_ex, st0).
Proof.
  unfold init. unfold bind at 1. unfold lift at 1. rewrite ex_cube.
  reflexivity.
Qed.

Lemma ex_unitary : svd_left_unitary (fns fs_ex) (U fs_ex).
Proof.
  split; [| split; [reflexivity | split; [reflexivity |]]].
  - split; [reflexivity |]. repeat constructor.
  - rewrite gram_ok. simpl. unfold identity. simpl. repeat f_equal; ring.
Qed.

(** The values of the example are 0 and 1, of which [svd0] returns the
    decomposition. *)
Lemma ex_fns_values : get2 (fns fs_ex) 0 0 = 0 /\ get2 (fns fs_ex) 1 0 = 1.
Proof. unfold get2. simpl. split; ring. Qed.

Lemma ex_reachable : reachable fs_ex (select_top_basis fs_ex 2).
Proof. apply reach_select, reach_init. Qed.

Lemma counter_dist_samples (n : Z) : samples_n n counter_dist.
Proof.
  intros w. do 2 eexists. split; [reflexivity |].
  now rewrite length_map, length_seq.
Qed.

Lemma n_ticks_4_4 : n_ticks 4 4 = 2%nat.
Proof. unfold n_ticks. rewrite (Rceil_unique 2); [reflexivity | lra]. Qed.

Lemma ex4_cube : uniform_cube 1 4 4 = Ok ex4_domain.
Proof.
  rewrite uniform_cube_1 by lra. unfold ticks. rewrite n_ticks_4_4.
  reflexivity.
Qed.

Lemma ex4_init (nb : Z) :
  init (World := unit) (Param := R) svd0 zeros fn4 1 [] 1 nb 4 4 st0
  = (Ok (space4 nb), st0).
Proof.
  unfold init. unfold bind at 1. unfold lift at 1. rewrite ex4_cube.
  reflexivity.
Qed.

Lemma ex4_unitary (nb : Z) : svd_left_unitary (fns (space4 nb)) (U (space4 nb)).
Proof. exact ex_unitary. Qed.

Lemma ex4_shape (nb : Z) : svd_shape (fns (space4 nb)) (U (space4 nb)).
Proof.
  split; [| split; reflexivity]. split; [reflexivity |]. repeat constructor.
Qed.

Lemma ex4_reachable (nb k : Z) :
  reachable (space4 nb) (select_top_basis (space4 nb) k).
Proof. apply reach_select, reach_init. Qed.

(** The values of the second example are 0 and 1 as well. *)
Lemma ex4_fns_values :
  get2 (fns (space4 1)) 0 0 = 0 /\ get2 (fns (space4 1)) 1 0 = 1.
Proof. unfold get2. simpl. split; field. Qed.

(** C1.  On the square with radius 1 and step 1/2 the domain array has
    2 rows and 16 columns, and the constructor stores
    [dx = (1/2) ** 16], not [(1/2) ** 2]. *)
Theorem dx_on_square :
  exists fs st',
    init (World := unit) (Param := R) svd0 zeros fn2 2 [] 1 1 (1 / 2) 1 st0
    = (Ok fs, st') /\
    shape0 (domain fs) = 2%nat /\ shape1 (domain fs) = 16%nat /\
    dx fs = (1 / 2) ^ 16 /\ dx fs <> (1 / 2) ^ 2.
Proof.
  assert (E : uniform_cube 2 1 (1 / 2) =
              Ok (mk2 2 16 (mesh_rows 2 (map (fun i => - (1) + INR i * (1 / 2))
                                             (seq 0 4))))).
  { rewrite uniform_cube_mesh by (lia || lra).
    unfold ticks. rewrite n_ticks_1_half. reflexivity. }
  eexists. eexists. split.
  - unfold init. unfold bind at 1. unfold lift at 1. rewrite E. reflexivity.
  - simpl. split; [reflexivity |]. split; [reflexivity |]. split; lra.
Qed.

(** C2.  On the square with radius 1 and step 1 the array returned has
    one row per axis and one column per grid point: shape (2, 4). *)
Theorem uniform_cube_square :
  uniform_cube 2 1 1 =
  Ok (mk2 2 4 [[-1 + 0 * 1; -1 + 1 * 1; -1 + 0 * 1; -1 + 1 * 1];
               [-1 + 0 * 1; -1 + 0 * 1; -1 + 1 * 1; -1 + 1 * 1]]).
Proof.
  rewrite uniform_cube_mesh by (lia || lra).
  unfold ticks. rewrite n_ticks_1_1. reflexivity.
Qed.

(** C3.  On the square with radius 1 and step 1/2 there are 16 grid
    points; a space constructed there with 3 functions and [n_basis = 3]
    has a basis of 2 columns only, the domain array having 2 rows, and
    [basis.T @ basis * dx] has shape (2, 2): it is not the identity of
    size [n_basis]. *)
Theorem basis_on_square :
  exists fs st',
    init (World := unit) (Param := R) svd3 zeros fn2 2 [] 3 3 (1 / 2) 1 st0
    = (Ok fs, st') /\
    point_count 2 (domain fs) = 16%nat /\
    shape1 (fns fs) = 3%nat /\
    n_basis fs = 3%Z /\
    shape1 (basis fs) = 2%nat /\
    rows_of (gram_dx fs) = 2%nat /\
    gram_dx fs <> Ok (A2 (identity 3)).
Proof.
  assert (E : uniform_cube 2 1 (1 / 2) =
              Ok (mk2 2 16 (mesh_rows 2 (map (fun i => - (1) + INR i * (1 / 2))
                                             (seq 0 4))))).
  { rewrite uniform_cube_mesh by (lia || lra).
    unfold ticks. rewrite n_ticks_1_half. reflexivity. }
  eexists. eexists. split.
  - unfold init. unfold bind at 1. unfold lift at 1. rewrite E. reflexivity.
  - split; [reflexivity |]. split; [reflexivity |]. split; [reflexivity |].
    split; [reflexivity |].
    assert (Hrows : forall fs, shape1 (basis fs) = 2%nat ->
                               rows_of (gram_dx fs) = 2%nat).
    { intros fs H. unfold gram_dx. rewrite gram_ok. simpl. exact H. }
    split; [apply Hrows; reflexivity |].
    intros H. apply (f_equal rows_of) in H. rewrite Hrows in H by reflexivity.
    discriminate H.
Qed.

(** C5 as first stated fails: a space constructed with [n_basis = 1] on
    a [U] of two columns has, after [select_top_basis(2)], a basis of two
    columns, and the basis computed at construction has one. *)
Lemma select_top_basis_counterexample :
  init (World := unit) (Param := R) svd0 zeros fn0 1 [] 1 1 1 1 st0
  = (Ok fs_ex, st0) /\
  (1 <= 2 <= Z.of_nat (shape1 (U fs_ex)))%Z /\
  get_basis (select_top_basis fs_ex 2) <> slice_cols (get_basis fs_ex) 2.
Proof.
  split; [exact ex_init |]. split; [simpl; lia |].
  intros H. apply (f_equal shape1) in H. discriminate H.
Qed.


Lemma square_init :
  exists fs,
    init (World := unit) (Param := R) svd3 zeros fn2 2 [] 3 3 (1 / 2) 1 st0
    = (Ok fs, st0) /\
    point_count 2 (domain fs) = 16%nat /\
    shape0 (domain fs) = 2%nat /\
    n_basis fs = 3%Z /\
    basis fs = div_scalar (slice_cols U0 3) (sqrt ((1 / 2) ^ 16)).
Proof.
  assert (E : uniform_cube 2 1 (1 / 2) =
              Ok (mk2 2 16 (mesh_rows 2 (map (fun i => - (1) + INR i * (1 / 2))
                                             (seq 0 4))))).
  { rewrite uniform_cube_mesh by (lia || lra).
    unfold ticks. rewrite n_ticks_1_half. reflexivity. }
  eexists. split.
  - unfold init. unfold bind at 1. unfold lift at 1. rewrite E. reflexivity.
  - repeat split.
Qed.

(** C4 as first stated fails.  A space constructed with [n_basis = 20] on
    two points of the line has a basis of 2 columns, and [reconstruct] of
    a coefficient vector of length [n_basis] raises.  On the square with
    step 1/2 (16 grid points) a space constructed with 3 functions and
    [n_basis = 3] has a basis of 2 rows and 2 columns, and [reconstruct]
    of a coefficient vector of length 3 raises. *)
Lemma round_trip_counterexample :
  (init (World := unit) (Param := R) svd0 zeros fn4 1 [] 1 20 4 4 st0
   = (Ok (space4 20), st0) /\
   n_basis (space4 20) = 20%Z /\
   length (repeat 1 20) = 20%nat /\
   reconstruct (space4 20) (A1 (repeat 1 20)) = Raise ValueError) /\
  (exists fs,
     init (World := unit) (Param := R) svd3 zeros fn2 2 [] 3 3 (1 / 2) 1 st0
     = (Ok fs, st0) /\
     point_count 2 (domain fs) = 16%nat /\
     n_basis fs = 3%Z /\
     reconstruct fs (A1 [1; 1; 1]) = Raise ValueError).
Proof.
  split.
  - split; [apply ex4_init |]. repeat split.
  - destruct square_init as [fs [Hinit [Hpts [_ [Hnb Hb]]]]].
    exists fs. split; [exact Hinit |]. split; [exact Hpts |].
    split; [exact Hnb |]. unfold reconstruct. rewrite Hb. reflexivity.
Qed.

(** C9 as first stated fails.  In the space constructed with
    [n_basis = 20] on two points of the line a signal of [n_points]
    entries gives 2 coefficients, not [n_basis] of them, and a batch of
    shape (n_points, 1) raises.  On the square with step 1/2 the domain
    array has 2 rows for 16 grid points, and [signal_coeffs] of a signal
    with one entry per grid point raises. *)
Lemma signal_coeffs_counterexample :
  (init (World := unit) (Param := R) svd0 zeros fn4 1 [] 1 20 4 4 st0
   = (Ok (space4 20), st0) /\
   length [5; 6] = n_points (space4 20) /\
   (exists w, signal_coeffs (space4 20) (A1 [5; 6]) = Ok (A1 w) /\
              length w = 2%nat /\
              Z.of_nat (length w) <> n_basis (space4 20)) /\
   signal_coeffs (space4 20) (A2 (mk2 2 1 [[5]; [6]])) = Raise ValueError) /\
  (exists fs,
     init (World := unit) (Param := R) svd3 zeros fn2 2 [] 3 3 (1 / 2) 1 st0
     = (Ok fs, st0) /\
     point_count 2 (domain fs) = 16%nat /\
     n_points fs = 2%nat /\
     signal_coeffs fs (A1 (repeat 1 16)) = Raise ValueError).
Proof.
  split.
  - split; [apply ex4_init |]. split; [reflexivity |]. split.
    + eexists. split; [reflexivity |]. split; [reflexivity |].
      simpl. lia.
    + reflexivity.
  - destruct square_init as [fs [Hinit [Hpts [Hrows [_ Hb]]]]].
    exists fs. split; [exact Hinit |]. split; [exact Hpts |].
    split; [exact Hrows |]. unfold signal_coeffs. rewrite Hb. reflexivity.
Qed.

(** ** The theorems at the examples *)

Lemma round_trip_witness :
  (0 <= 2 <= Z.of_nat (shape1 (U (select_top_basis (space4 1) 2))))%Z /\
  0 < 4 /\ length [3; 4] = 2%nat /\
  dx (select_top_basis (space4 1) 2) = 4 /\
  exists signal,
    reconstruct (select_top_basis (space4 1) 2) (A1 [3; 4]) = Ok signal /\
    signal_coeffs (select_top_basis (space4 1) 2) signal = Ok (A1 [3; 4]).
Proof.
  split; [simpl; lia |]. split; [lra |]. split; [reflexivity |].
  apply (round_trip svd0 zeros fn4 [] 1 1 4 4 st0 st0 (space4 1)
                    (select_top_basis (space4 1) 2) [3; 4]
                    (ex4_init 1) (ex4_unitary 1));
    [lra | apply ex4_reachable | simpl; lia | reflexivity].
Defined.

Lemma select_top_basis_frame_witness :
  reachable fs_ex (select_top_basis fs_ex 2) /\
  get_basis (select_top_basis (select_top_basis fs_ex 2) 1) =
  slice_cols (get_basis fs_ex) 1 /\
  get_basis (select_top_basis (select_top_basis fs_ex 2) 1) =
  div_scalar (slice_cols (U fs_ex) 1) (sqrt (dx fs_ex)) /\
  singular_values (select_top_basis (select_top_basis fs_ex 2) 1) = [1].
Proof.
  split; [exact ex_reachable |].
  destruct (select_top_basis_frame svd0 zeros fn0 1 [] 1 1 1 1 st0 st0 fs_ex
              (select_top_basis fs_ex 2) 1 ex_init ex_reachable)
    as [H1 [H2 [_ [_ [_ [_ [_ [_ [H3 _]]]]]]]]].
  split; [apply H3; vm_compute; intros; discriminate |].
  split; [exact H1 | exact H2].
Defined.

Lemma select_top_basis_out_of_range_witness :
  (0 <= 5)%Z /\
  n_basis (select_top_basis fs_ex 5) = 5%Z /\
  shape1 (basis (select_top_basis fs_ex 5)) = 2%nat.
Proof.
  split; [lia |].
  destruct (select_top_basis_out_of_range fs_ex 5) as [H1 [_ [_ [_ H2]]]];
    [lia |].
  split; [exact H1 |]. apply H2. simpl. lia.
Defined.

Lemma generate_functions_spec_witness :
  (1 <= 2)%Z /\
  exists arg_samples w' functions,
    draws 2 0%nat [counter_dist; counter_dist] arg_samples w' /\
    generate_functions sum_fn 2 [counter_dist; counter_dist] (mkSt 0%nat [])
    = (Ok functions, mkSt w' [(0%nat, 2%Z); (1%nat, 2%Z)]) /\
    length functions = 2%nat.
Proof.
  split; [lia |].
  destruct (generate_functions_spec sum_fn 2 [counter_dist; counter_dist]
                                    (mkSt 0%nat []))
    as [arg_samples [w' [functions [H1 [H2 [H3 _]]]]]].
  - lia.
  - repeat constructor; apply counter_dist_samples.
  - exists arg_samples, w', functions. split; [exact H1 |].
    split; [exact H2 | exact H3].
Defined.


Lemma signal_coeffs_squeeze_witness :
  (0 <= 2 <= Z.of_nat (shape1 (U (select_top_basis (space4 1) 2))))%Z /\
  (exists w, signal_coeffs (select_top_basis (space4 1) 2) (A1 [5; 6])
             = Ok (A1 w) /\ length w = 2%nat) /\
  (exists c, signal_coeffs (select_top_basis (space4 1) 2)
                           (A2 (mk2 2 3 [[1; 2; 3]; [4; 5; 6]]))
             = Ok (A2 c) /\ shape0 c = 3%nat /\ shape1 c = 2%nat) /\
  (exists w, signal_coeffs (select_top_basis (space4 1) 2)
                           (A2 (mk2 2 1 [[5]; [6]]))
             = Ok (A1 w) /\ length w = 2%nat).
Proof.
  split; [simpl; lia |].
  destruct (signal_coeffs_squeeze svd0 zeros fn4 [] 1 1 4 4 st0 st0
              (space4 1) (select_top_basis (space4 1) 2)
              (ex4_init 1) (ex4_shape 1) (ex4_reachable 1 2))
    as [_ [Hvec [Hmat [Hone _]]]]; [simpl; lia |].
  split; [| split].
  - destruct (Hvec [5; 6] eq_refl) as [w [Hw Hlen]].
    exists w. split; [exact Hw |]. simpl in Hlen. lia.
  - destruct (Hmat (mk2 2 3 [[1; 2; 3]; [4; 5; 6]]) eq_refl)
      as [c [Hc [H0 [H1 _]]]]; [simpl; lia |].
    exists c. split; [exact Hc |]. split; [exact H0 |]. simpl in H1. lia.
  - destruct (Hone (mk2 2 1 [[5]; [6]]) eq_refl eq_refl) as [w [Hw Hlen]].
    exists w. split; [exact Hw |]. simpl in Hlen. lia.
Defined.

(** * Further properties of the module *)

(** ** uniform_cube at the edges *)

Lemma uniform_cube_no_axes (domain_dim : Z) (radius d : R) :
  (domain_dim <= 0)%Z -> uniform_cube domain_dim radius d = Raise ValueError.
Proof.
  intros Hdim. unfold uniform_cube.
  destruct (Z.eqb_spec domain_dim 1) as [E | _]; [lia |].
  unfold arange. destruct (Req_dec_T d 0) as [_ | _]; [reflexivity |].
  cbn [bindR]. replace (Z.to_nat domain_dim) with 0%nat by lia. reflexivity.
Qed.

Lemma uniform_cube_zero_step (domain_dim : Z) (radius : R) :
  uniform_cube domain_dim radius 0 = Raise ValueError.
Proof.
  unfold uniform_cube, arange.
  destruct (Req_dec_T 0 0) as [_ | H]; [| contradiction].
  now destruct (domain_dim =? 1)%Z.
Qed.

(** X1.  [uniform_cube] raises when the dimension is not positive (there
    is no array to stack) and when the step is zero. *)
Theorem uniform_cube_raises (domain_dim : Z) (radius d : R) :
  (domain_dim <= 0)%Z \/ d = 0 ->
  exists e, uniform_cube domain_dim radius d = Raise e.
Proof.
  intros [Hdim | ->]; exists ValueError.
  - now apply uniform_cube_no_axes.
  - apply uniform_cube_zero_step.
Qed.

Lemma uniform_cube_raises_witness :
  (0 <= 0)%Z /\ exists e, uniform_cube 0 1 1 = Raise e.
Proof.
  split; [lia |]. apply (uniform_cube_raises 0 1 1). left. lia.
Defined.

Lemma n_ticks_one (radius d : R) :
  0 < radius -> 2 * radius <= d -> n_ticks radius d = 1%nat.
Proof.
  intros Hr Hd. unfold n_ticks.
  rewrite (Rceil_unique 1); [reflexivity |].
  assert (Hx : (radius - - radius) / d * d = radius - - radius)
    by (field; lra).
  assert (0 < (radius - - radius) / d) by (apply Rdiv_lt_0_compat; lra).
  split; [lra | nra].
Qed.

Lemma n_ticks_zero (radius d : R) :
  (d < 0 /\ 0 <= radius) \/ (0 < d /\ radius <= 0) ->
  n_ticks radius d = 0%nat.
Proof.
  intros H. unfold n_ticks.
  assert (Hd : d <> 0) by lra.
  assert (Hx : (radius - - radius) / d * d = radius - - radius)
    by (field; assumption).
  assert (Hle : (radius - - radius) / d <= 0) by nra.
  destruct (Rceil_spec ((radius - - radius) / d)) as [Hlo _].
  assert (Hc : (Rceil ((radius - - radius) / d) < 1)%Z)
    by (apply lt_IZR; lra).
  lia.
Qed.

Lemma nth_ticks (radius d : R) (i : nat) :
  (i < n_ticks radius d)%nat -> nth i (ticks radius d) 0 = - radius + INR i * d.
Proof.
  intros Hi. unfold ticks.
  rewrite (nth_indep _ 0 (- radius + INR 0 * d))
    by now rewrite length_map, length_seq.
  rewrite (map_nth (fun i => - radius + INR i * d)). now rewrite seq_nth.
Qed.

(** X2.  When the step is at least the side [2 * radius] of the cube,
    every axis has the single tick [-radius]: the array holds
    [domain_dim] entries, all equal to [-radius]. *)
Theorem uniform_cube_single_point (domain_dim : Z) (radius d : R) :
  (1 <= domain_dim)%Z -> 0 < radius -> 2 * radius <= d ->
  exists g,
    uniform_cube domain_dim radius d = Ok g /\
    (shape0 g * shape1 g)%nat = Z.to_nat domain_dim /\
    length (concat (items g)) = Z.to_nat domain_dim /\
    forall x, In x (concat (items g)) -> x = - radius.
Proof.
  intros Hdim Hr Hd.
  pose proof (n_ticks_one radius d Hr Hd) as Hn.
  assert (Hticks : ticks radius d = [- radius + INR 0 * d])
    by (unfold ticks; now rewrite Hn).
  destruct (Z.eq_dec domain_dim 1) as [-> | Hne].
  - eexists. split; [apply uniform_cube_1; lra |].
    rewrite Hn, Hticks. simpl. repeat split; try reflexivity.
    intros x [<- | []]. ring.
  - eexists. split; [apply uniform_cube_mesh; [lia | lra] |].
    rewrite Hn. cbn [shape0 shape1 items].
    rewrite Nat.pow_1_l, Nat.mul_1_r. split; [reflexivity |]. split.
    + rewrite length_concat.
      assert (E : map (@length R) (mesh_rows (Z.to_nat domain_dim)
                                             (ticks radius d))
                  = repeat 1%nat (Z.to_nat domain_dim)).
      { unfold mesh_rows. rewrite map_map.
        rewrite (map_ext _ (fun _ => 1%nat)).
        - now rewrite map_const, length_seq.
        - intros k.
          rewrite length_ravel_axis, length_ticks, Hn, !Nat.pow_1_l.
          reflexivity. }
      rewrite E. clear E. induction (Z.to_nat domain_dim) as [| m IH];
        simpl; [reflexivity | now rewrite IH].
    + intros x Hx. apply in_concat in Hx. destruct Hx as [row [Hrow Hx]].
      unfold mesh_rows in Hrow. apply in_map_iff in Hrow.
      destruct Hrow as [k [<- _]]. apply In_ravel_axis in Hx.
      rewrite Hticks in Hx. destruct Hx as [<- | []]. simpl. ring.
Qed.

Lemma uniform_cube_single_point_witness :
  (1 <= 2)%Z /\ 0 < 1 /\ 2 * 1 <= 3 /\
  exists g,
    uniform_cube 2 1 3 = Ok g /\
    (shape0 g * shape1 g)%nat = 2%nat /\
    forall x, In x (concat (items g)) -> x = - (1).
Proof.
  split; [lia |]. split; [lra |]. split; [lra |].
  destruct (uniform_cube_single_point 2 1 3) as [g [Hg [Hs [_ Hx]]]];
    [lia | lra | lra |].
  exists g. split; [exact Hg |]. split; [exact Hs | exact Hx].
Defined.

(** X3.  When the step points away from the far side (a negative step
    with a radius that is not negative, or a positive step with a radius
    that is not positive) there is no tick: in one dimension the array
    has shape (0, 1). *)
Theorem uniform_cube_empty (radius d : R) :
  (d < 0 /\ 0 <= radius) \/ (0 < d /\ radius <= 0) ->
  uniform_cube 1 radius d = Ok (mk2 0 1 []).
Proof.
  intros H. rewrite uniform_cube_1 by lra.
  unfold ticks. now rewrite (n_ticks_zero radius d H).
Qed.

Lemma uniform_cube_empty_witness :
  (- (1) < 0 /\ 0 <= 1) /\ uniform_cube 1 1 (- (1)) = Ok (mk2 0 1 []).
Proof.
  split; [lra |]. apply (uniform_cube_empty 1 (- (1))). left. lra.
Defined.

(** X4.  In dimension above 1 the array has one row per axis, and its
    column [f] is a grid point: on row [k] it holds the tick of
    [np.arange(-radius, radius, d)] whose index is the digit of [f], in
    base the number of ticks, at mesh axis [xy_axis k] (axes 0 and 1
    exchanged), in row-major order. *)
Theorem uniform_cube_columns (domain_dim : Z) (radius d : R) :
  (1 < domain_dim)%Z -> d <> 0 ->
  exists axis g,
    arange (- radius) radius d = Ok axis /\
    uniform_cube domain_dim radius d = Ok g /\
    shape0 g = Z.to_nat domain_dim /\
    shape1 g = (length axis ^ Z.to_nat domain_dim)%nat /\
    forall k f,
      (k < shape0 g)%nat -> (f < shape1 g)%nat ->
      let n := length axis in
      let digit :=
        ((f / n ^ (Z.to_nat domain_dim - S (xy_axis (Z.to_nat domain_dim) k)))
           mod n)%nat in
      get2 g k f = nth digit axis 0.
Proof.
  intros Hdim Hd. exists (ticks radius d). eexists.
  split; [now apply arange_ticks |].
  split; [now apply uniform_cube_mesh |].
  cbn [shape0 shape1]. rewrite length_ticks.
  split; [reflexivity |]. split; [reflexivity |].
  intros k f Hk Hf. unfold get2. cbn [items].
  rewrite mesh_entry; rewrite ?length_ticks; try assumption. reflexivity.
Qed.

Lemma uniform_cube_columns_witness :
  (1 < 2)%Z /\ 1 <> 0 /\
  exists axis g,
    arange (- (1)) 1 1 = Ok axis /\
    uniform_cube 2 1 1 = Ok g /\
    get2 g 0 3 = nth 1 axis 0 /\ get2 g 1 1 = nth 0 axis 0.
Proof.
  split; [lia |]. split; [lra |].
  destruct (uniform_cube_columns 2 1 1) as [axis [g [Ha [Hg [H0 [H1 Hval]]]]]];
    [lia | lra |].
  assert (Hn : length axis = 2%nat).
  { rewrite arange_ticks in Ha by lra. inversion Ha.
    now rewrite length_ticks, n_ticks_1_1. }
  rewrite Hn in H1, Hval.
  exists axis, g. split; [exact Ha |]. split; [exact Hg |]. split.
  - apply (Hval 0%nat 3%nat); [rewrite H0 | rewrite H1]; simpl; lia.
  - apply (Hval 1%nat 1%nat); [rewrite H0 | rewrite H1]; simpl; lia.
Defined.

(** ** generate_functions at the edges *)

Lemma sample_all_raises {World Param : Type} (n : Z) (e : exn)
      (pre post : list (Dist World Param)) (bad : Dist World Param) :
  Forall (samples_n n) pre -> always_raises n e bad ->
  forall (j : nat) (st : St World),
  exists w',
    sample_all j (pre ++ bad :: post) n st =
    (Raise e,
     mkSt w' (calls st ++ map (fun t => (t, n)) (seq j (S (length pre))))).
Proof.
  intros Hpre Hbad. induction Hpre as [| d0 pre' Hd0 Hpre' IH]; intros j st.
  - destruct (Hbad (world st)) as [w' Ew]. exists w'.
    simpl. unfold bind, call_sample. now rewrite Ew.
  - destruct (Hd0 (world st)) as [s [w1 [Es _]]].
    destruct (IH (S j) (mkSt w1 (calls st ++ [(j, n)]))) as [w' Eall].
    exists w'. simpl. unfold bind at 1. unfold call_sample. rewrite Es.
    unfold bind at 1. simpl in Eall. rewrite Eall. simpl.
    now rewrite <- app_assoc.
Qed.

(** X6.  When a distribution raises on [sample(n)] and those before it
    answer, [generate_functions] raises the same exception; the
    distributions up to the failing one were asked once each, in order,
    and those after it were not asked. *)
Theorem generate_functions_sampling_fails {World Param Point : Type}
        (function : Point -> list Param -> result R) (n : Z) (e : exn)
        (pre post : list (Dist World Param)) (bad : Dist World Param)
        (st : St World) :
  Forall (samples_n n) pre -> always_raises n e bad ->
  exists w',
    generate_functions function n (pre ++ bad :: post) st =
    (Raise e,
     mkSt w' (calls st ++ map (fun t => (t, n)) (seq 0 (S (length pre))))).
Proof.
  intros Hpre Hbad.
  destruct (sample_all_raises n e pre post bad Hpre Hbad 0%nat st)
    as [w' Eall].
  exists w'. unfold generate_functions, bind. now rewrite Eall.
Qed.

Lemma generate_functions_sampling_fails_witness :
  exists w',
    generate_functions sum_fn 2 ([counter_dist] ++ failing_dist :: [counter_dist])
                       (mkSt 0%nat [])
    = (Raise (UserError 7), mkSt w' [(0%nat, 2%Z); (1%nat, 2%Z)]).
Proof.
  apply (generate_functions_sampling_fails sum_fn 2 (UserError 7)
           [counter_dist] [counter_dist] failing_dist (mkSt 0%nat [])).
  - repeat constructor. apply counter_dist_samples.
  - intros w. exists w. reflexivity.
Defined.

(** X7.  For [n <= 0] the loop over [range(n)] makes no function: the
    result is the empty list, and every distribution has still been asked
    once. *)
Theorem generate_functions_no_functions {World Param Point : Type}
        (function : Point -> list Param -> result R) (n : Z)
        (arg_dists : list (Dist World Param)) (st : St World) :
  (n <= 0)%Z ->
  Forall (samples_n n) arg_dists ->
  exists w',
    generate_functions function n arg_dists st =
    (Ok [],
     mkSt w' (calls st ++ map (fun j => (j, n)) (seq 0 (length arg_dists)))).
Proof.
  intros Hn Hd.
  destruct (sample_all_spec n arg_dists Hd 0%nat st)
    as [arg_samples [w' [_ [Eall _]]]].
  exists w'. unfold generate_functions, bind. rewrite Eall. unfold ret.
  replace (Z.to_nat n) with 0%nat by lia. reflexivity.
Qed.

Lemma generate_functions_no_functions_witness :
  (0 <= 0)%Z /\
  exists w',
    generate_functions sum_fn 0 [counter_dist] (mkSt 5%nat [])
    = (Ok [], mkSt w' [(0%nat, 0%Z)]).
Proof.
  split; [lia |].
  apply (generate_functions_no_functions sum_fn 0 [counter_dist]
                                         (mkSt 5%nat [])).
  - lia.
  - repeat constructor. apply counter_dist_samples.
Defined.

Lemma collect_args_short {Param : Type} (arg_samples : list (list Param))
      (k : nat) :
  (exists s, In s arg_samples /\ (length s <= k)%nat) ->
  collect_args arg_samples k = Raise IndexError.
Proof.
  intros [s [Hin Hlen]]. induction arg_samples as [| s0 rest IH];
    [contradiction |].
  simpl. destruct (nth_error s0 k) as [a |] eqn:Ea; [| reflexivity].
  destruct Hin as [-> | Hin].
  - apply nth_error_None in Hlen. congruence.
  - now rewrite (IH Hin).
Qed.

(** X8.  A generated function whose index is beyond the end of one of
    the sample sequences raises IndexError on every point, and the base
    function is not called. *)
Theorem func_index_error {Param Point : Type}
        (function : Point -> list Param -> result R)
        (arg_samples : list (list Param)) (i : nat) (point : Point) :
  (exists s, In s arg_samples /\ (length s <= i)%nat) ->
  func function arg_samples i point = Raise IndexError.
Proof.
  intros H. unfold func. now rewrite (collect_args_short arg_samples i H).
Qed.

Lemma func_index_error_witness :
  func sum_fn [[1; 2]; [3]] 1 0 = Raise IndexError.
Proof.
  apply (func_index_error sum_fn [[1; 2]; [3]] 1%nat 0).
  exists [3]. split; [right; left; reflexivity | simpl; lia].
Defined.

(** ** function_values on empty input *)

Lemma outer_loop_no_functions {P : Type} (domain_points : list P) :
  forall (values : array2) (j : nat),
    outer_loop values j domain_points [] = Ok values.
Proof.
  induction domain_points as [| point rest IH]; intros values j;
    [reflexivity |]. simpl. apply IH.
Qed.

(** X9.  With no function [function_values] returns an array of shape
    (number of points, 0), all of whose rows are empty; with no point it
    returns an array of shape (0, number of functions) and calls no
    function.  Neither raises. *)
Theorem function_values_empty {P : Type} (uninit : nat -> nat -> R)
        (functions : list (P -> result R)) (domain_points : list P) :
  function_values uninit [] domain_points =
  Ok (mk2 (length domain_points) 0 (repeat [] (length domain_points))) /\
  function_values uninit functions [] = Ok (mk2 0 (length functions) []).
Proof.
  split; [| reflexivity].
  unfold function_values. rewrite outer_loop_no_functions.
  unfold np_empty. simpl. do 2 f_equal.
  now rewrite map_const, length_seq.
Qed.

(** ** select_top_basis, again *)



(** X11.  [select_top_basis(k)] with a negative [k] follows the slice
    [:k]: the basis keeps all but the last [-k] columns of [U] (none when
    [U] has fewer), while [n_basis] is the negative [k], which is not the
    width of the basis. *)
Theorem select_top_basis_negative (self : Function_Space) (k : Z) :
  (k < 0)%Z ->
  let fs := select_top_basis self k in
  n_basis fs = k /\
  Z.of_nat (shape1 (basis fs)) = Z.max 0 (Z.of_nat (shape1 (U self)) + k) /\
  (wf2 (U self) -> wf2 (basis fs)) /\
  n_basis fs <> Z.of_nat (shape1 (basis fs)).
Proof.
  intros Hk fs. unfold fs. simpl.
  assert (E : slice_stop k (shape1 (U self)) =
              Z.to_nat (Z.of_nat (shape1 (U self)) + k)).
  { unfold slice_stop. destruct (Z.ltb_spec k 0); [reflexivity | lia]. }
  split; [reflexivity |]. split; [rewrite E; lia |].
  split; [| rewrite E; lia].
  intros Hwf.
  apply (wf2_div_scalar (slice_cols (U self) k)), wf2_slice_cols, Hwf.
Qed.

Lemma select_top_basis_negative_witness :
  (-1 < 0)%Z /\
  n_basis (select_top_basis fs_ex (-1)) = (-1)%Z /\
  Z.of_nat (shape1 (basis (select_top_basis fs_ex (-1)))) = 1%Z.
Proof.
  split; [lia |].
  destruct (select_top_basis_negative fs_ex (-1)) as [H1 [H2 _]]; [lia |].
  split; [exact H1 | exact H2].
Defined.

(** ** reconstruct *)

Lemma nth_map_seq {A} (h : nat -> A) (m i : nat) (d : A) :
  (i < m)%nat -> nth i (map h (seq 0 m)) d = h i.
Proof.
  intros Hi. rewrite (nth_indep _ d (h 0%nat))
    by now rewrite length_map, length_seq.
  rewrite (map_nth h). now rewrite seq_nth.
Qed.

(** X12.  [reconstruct] of the [j]-th unit coefficient vector is the
    [j]-th column of the basis. *)
Theorem reconstruct_unit (self : Function_Space) (j : nat) :
  wf2 (basis self) -> (j < shape1 (basis self))%nat ->
  reconstruct self (A1 (unit_vector j (shape1 (basis self)))) =
  Ok (A1 (col j (items (basis self)))).
Proof.
  intros [_ Hrows] Hj. unfold reconstruct, np_dot, unit_vector.
  rewrite length_map, length_seq, Nat.eqb_refl. do 2 f_equal.
  unfold col. apply map_ext_in. intros r Hr.
  rewrite Forall_forall in Hrows. rewrite <- (Hrows r Hr).
  rewrite dotv_unit. simpl. now rewrite Nat.sub_0_r.
Qed.

Lemma reconstruct_unit_witness :
  wf2 (basis fs_ex) /\ (0 < shape1 (basis fs_ex))%nat /\
  reconstruct fs_ex (A1 (unit_vector 0 1)) =
  Ok (A1 (col 0 (items (basis fs_ex)))).
Proof.
  assert (Hwf : wf2 (basis fs_ex)).
  { split; [reflexivity |]. repeat constructor. }
  assert (Hj : (0 < shape1 (basis fs_ex))%nat) by (vm_compute; lia).
  split; [exact Hwf |]. split; [exact Hj |].
  exact (reconstruct_unit fs_ex 0 Hwf Hj).
Defined.

(** X13.  [reconstruct] of a coefficient vector succeeds exactly when
    the vector has as many entries as the basis has columns: it then
    returns a signal with one entry per row of the basis, and otherwise
    raises ValueError. *)
Theorem reconstruct_shape (self : Function_Space) (c : list R) :
  wf2 (basis self) ->
  (length c = shape1 (basis self) ->
   exists s, reconstruct self (A1 c) = Ok (A1 s) /\
             length s = shape0 (basis self)) /\
  (length c <> shape1 (basis self) ->
   reconstruct self (A1 c) = Raise ValueError).
Proof.
  intros [Hlen _]. unfold reconstruct, np_dot. split; intros Hc.
  - rewrite Hc, Nat.eqb_refl. eexists. split; [reflexivity |].
    now rewrite length_map.
  - destruct (Nat.eqb_spec (shape1 (basis self)) (length c)) as [E | _];
      [congruence | reflexivity].
Qed.

Lemma reconstruct_shape_witness :
  wf2 (basis fs_ex) /\
  (exists s, reconstruct fs_ex (A1 [7]) = Ok (A1 s) /\ length s = 2%nat) /\
  reconstruct fs_ex (A1 [7; 8]) = Raise ValueError.
Proof.
  assert (Hwf : wf2 (basis fs_ex)).
  { split; [reflexivity |]. repeat constructor. }
  split; [exact Hwf |].
  split.
  - apply (proj1 (reconstruct_shape fs_ex [7] Hwf)). reflexivity.
  - apply (proj2 (reconstruct_shape fs_ex [7; 8] Hwf)).
    change (2%nat <> slice_stop 1 2). vm_compute. lia.
Defined.

(** ** Projections *)

Lemma signal_coeffs_vector_value (fs : Function_Space) (v : list R) :
  n_basis fs = Z.of_nat (shape1 (basis fs)) ->
  length v = shape0 (basis fs) ->
  signal_coeffs fs (A1 v) =
  Ok (A1 (map (fun y => y * dx fs)
              (map (fun j => dotv v (col j (items (basis fs))))
                   (seq 0 (shape1 (basis fs)))))).
Proof.
  intros Hn Hv. unfold signal_coeffs. simpl T. unfold np_dot.
  rewrite Hv, Nat.eqb_refl. simpl. rewrite !length_map, length_seq.
  destruct (Nat.eqb_spec (shape1 (basis fs)) 1) as [E | _]; [| reflexivity].
  unfold reshape1. simpl. rewrite !length_map, length_seq.
  replace (n_basis fs =? Z.of_nat (shape1 (basis fs)))%Z with true
    by (symmetry; now apply Z.eqb_eq).
  now rewrite orb_true_r.
Qed.

Lemma length_col (j : nat) (rows : list (list R)) :
  length (col j rows) = length rows.
Proof. unfold col. apply length_map. Qed.

(** X14.  In a space as constructed and after any [select_top_basis]
    calls, with [n_basis] between 0 and the number of columns of [U],
    [encoder_coeffs] returns an array of shape (n_functions, n_basis)
    whose row [i] is [signal_coeffs] of the [i]-th column of [fns], the
    values of the [i]-th generated function. *)
Theorem encoder_coeffs_rows {World Param : Type} svd uninit
        (fn : list R -> list Param -> result R) (domain_dim : Z)
        (dist_args : list (Dist World Param)) (n_functions nb : Z)
        (d radius : R) (st st' : St World) (fs0 fs : Function_Space) :
  init svd uninit fn domain_dim dist_args n_functions nb d radius st
  = (Ok fs0, st') ->
  svd_left_unitary (fns fs0) (U fs0) ->
  reachable fs0 fs ->
  (0 <= n_basis fs <= Z.of_nat (shape1 (U fs)))%Z ->
  exists E,
    encoder_coeffs fs = Ok (A2 E) /\
    shape0 E = shape1 (fns fs) /\
    Z.of_nat (shape1 E) = n_basis fs /\
    forall i, (i < shape1 (fns fs))%nat ->
      signal_coeffs fs (A1 (col i (items (fns fs)))) =
      Ok (A1 (nth i (items E) [])).
Proof.
  intros Hinit Hu Hr Hk.
  destruct (constructed_state _ _ _ _ _ _ _ _ _ _ _ _ _ Hinit Hu Hr)
    as [Hb [_ [_ [_ H0]]]].
  pose proof (init_shapes _ _ _ _ _ _ _ _ _ _ _ _ Hinit) as [_ [Hwf Hsh]].
  apply init_inv in Hinit.
  destruct Hinit as [functions [V [_ [_ [_ [Hnb [_ Hb0]]]]]]].
  rewrite <- Hnb in Hb0.
  destruct (reachable_inv fs0 fs Hb0 Hr) as [Hdom [Hfns _]].
  assert (Hs1 : Z.of_nat (shape1 (basis fs)) = n_basis fs).
  { rewrite Hb. simpl. rewrite slice_stop_in_range by assumption. lia. }
  assert (Hs0 : shape0 (basis fs) = shape0 (fns fs)).
  { rewrite Hb. simpl. rewrite H0, Hfns, Hsh. unfold n_points. now rewrite Hdom. }
  rewrite <- Hfns in Hwf. destruct Hwf as [Hlen _].
  eexists. split.
  { unfold encoder_coeffs, np_dot, transpose. cbn [shape0 shape1 items].
    rewrite <- Hs0, Nat.eqb_refl. reflexivity. }
  cbn [mul_scalar shape0 shape1 items].
  split; [reflexivity |]. split; [assumption |].
  intros i Hi.
  rewrite signal_coeffs_vector_value
    by (rewrite ?length_col; congruence).
  rewrite !map_map. rewrite (nth_map_seq _ _ i) by assumption.
  now rewrite map_map.
Qed.

Lemma encoder_coeffs_rows_witness :
  (0 <= 2 <= Z.of_nat (shape1 (U (select_top_basis fs_ex 2))))%Z /\
  exists E,
    encoder_coeffs (select_top_basis fs_ex 2) = Ok (A2 E) /\
    shape0 E = 1%nat /\ Z.of_nat (shape1 E) = 2%Z.
Proof.
  split; [simpl; lia |].
  destruct (encoder_coeffs_rows svd0 zeros fn0 1 [] 1 1 1 1 st0 st0 fs_ex
              (select_top_basis fs_ex 2) ex_init ex_unitary ex_reachable)
    as [E [HE [H0 [H1 _]]]]; [simpl; lia |].
  exists E. split; [exact HE |]. split; [exact H0 | exact H1].
Defined.

(** X16.  After [select_top_basis(k)] with [k] beyond the columns of
    [U], [signal_coeffs] of a batch made of a single signal, of shape
    (n_points, 1), raises ValueError: the product has as many entries as
    [U] has columns and cannot be reshaped to [k] entries. *)
Theorem signal_coeffs_out_of_range (self : Function_Space) (k : Z)
        (a : array2) :
  (Z.of_nat (shape1 (U self)) < k)%Z ->
  shape0 a = shape0 (U self) -> shape1 a = 1%nat ->
  signal_coeffs (select_top_basis self k) (A2 a) = Raise ValueError.
Proof.
  intros Hk Ha0 Ha1. unfold signal_coeffs. simpl T. unfold np_dot.
  cbn [select_top_basis basis n_basis dx transpose div_scalar slice_cols
       shape0 shape1 items].
  rewrite Ha0, Nat.eqb_refl. cbn [bindR mul_scalar shape_0 shape0].
  rewrite Ha1. cbn [Nat.eqb]. unfold reshape1. cbn [size shape0 shape1].
  assert (E : slice_stop k (shape1 (U self)) = shape1 (U self)).
  { unfold slice_stop. destruct (Z.ltb_spec k 0); lia. }
  rewrite E, Nat.mul_1_l.
  destruct (Z.eqb_spec k (-1)) as [E1 | _]; [lia |].
  destruct (Z.eqb_spec k (Z.of_nat (shape1 (U self)))) as [E2 | _]; [lia |].
  reflexivity.
Qed.

Lemma signal_coeffs_out_of_range_witness :
  (Z.of_nat (shape1 (U fs_ex)) < 5)%Z /\
  signal_coeffs (select_top_basis fs_ex 5) (A2 (mk2 2 1 [[5]; [6]]))
  = Raise ValueError.
Proof.
  assert (Hk : (Z.of_nat (shape1 (U fs_ex)) < 5)%Z) by (simpl; lia).
  split; [exact Hk |].
  exact (signal_coeffs_out_of_range fs_ex 5 (mk2 2 1 [[5]; [6]]) Hk
                                    eq_refl eq_refl).
Defined.

(** ** The constructor, again *)

(** X17.  When the dimension is not positive or the step is zero the
    constructor raises before any distribution is sampled: the state of
    the random source and the log of calls are as they were. *)
Theorem init_raises_before_sampling {World Param : Type} svd uninit
        (fn : list R -> list Param -> result R) (domain_dim : Z)
        (dist_args : list (Dist World Param)) (n_functions nb : Z)
        (d radius : R) (st : St World) :
  (domain_dim <= 0)%Z \/ d = 0 ->
  exists e,
    init svd uninit fn domain_dim dist_args n_functions nb d radius st
    = (Raise e, st).
Proof.
  intros H. exists ValueError. unfold init. unfold bind at 1. unfold lift at 1.
  destruct H as [Hdim | ->].
  - now rewrite uniform_cube_no_axes.
  - now rewrite uniform_cube_zero_step.
Qed.

Lemma init_raises_before_sampling_witness :
  (0 <= 0)%Z /\
  exists e,
    init svd0 zeros sum_fn_point 0 [counter_dist] 3 2 1 1 (mkSt 0%nat [])
    = (Raise e, mkSt 0%nat []).
Proof.
  split; [lia |].
  apply (init_raises_before_sampling svd0 zeros sum_fn_point 0 [counter_dist]
                                     3 2 1 1 (mkSt 0%nat [])).
  left. lia.
Defined.

Lemma generate_functions_inv {World Param Point : Type}
      (function : Point -> list Param -> result R) (n : Z)
      (arg_dists : list (Dist World Param)) (st st' : St World)
      (functions : list (Point -> result R)) :
  generate_functions function n arg_dists st = (Ok functions, st') ->
  exists arg_samples,
    functions = map (func function arg_samples) (seq 0 (Z.to_nat n)).
Proof.
  unfold generate_functions, bind, ret.
  destruct (sample_all 0 arg_dists n st) as [[arg_samples | e] st1];
    [| discriminate].
  intros H. inversion H. now exists arg_samples.
Qed.





Lemma uniform_cube_ok (domain_dim : Z) (radius d : R) :
  (1 <= domain_dim)%Z -> d <> 0 ->
  exists g, uniform_cube domain_dim radius d = Ok g.
Proof.
  intros Hdim Hd. destruct (Z.eq_dec domain_dim 1) as [-> | Hne].
  - eexists. now apply uniform_cube_1.
  - eexists. apply uniform_cube_mesh; [lia | assumption].
Qed.

(** X20.  With a positive dimension and a step that is not zero, when a
    distribution raises on [sample(n_functions)] and those before it
    answer, the constructor raises the same exception: no function is
    evaluated, [np.linalg.svd] is not reached, and the distributions
    after the failing one are not asked. *)
Theorem init_sampling_fails {World Param : Type} svd uninit
        (fn : list R -> list Param -> result R) (domain_dim : Z)
        (pre post : list (Dist World Param)) (bad : Dist World Param)
        (n_functions nb : Z) (d radius : R) (e : exn) (st : St World) :
  (1 <= domain_dim)%Z -> d <> 0 ->
  Forall (samples_n n_functions) pre -> always_raises n_functions e bad ->
  exists w',
    init svd uninit fn domain_dim (pre ++ bad :: post) n_functions nb d radius
         st
    = (Raise e,
       mkSt w' (calls st ++ map (fun t => (t, n_functions))
                                (seq 0 (S (length pre))))).
Proof.
  intros Hdim Hd Hpre Hbad.
  destruct (uniform_cube_ok domain_dim radius d Hdim Hd) as [g Hg].
  destruct (sample_all_raises n_functions e pre post bad Hpre Hbad 0%nat st)
    as [w' Eall].
  exists w'. unfold init. unfold bind at 1. unfold lift at 1. rewrite Hg.
  unfold bind at 1. unfold generate_functions. unfold bind at 1.
  now rewrite Eall.
Qed.

Lemma init_sampling_fails_witness :
  (1 <= 1)%Z /\ 1 <> 0 /\
  exists w',
    init svd0 zeros sum_fn_point 1 ([counter_dist] ++ failing_dist :: [])
         2 1 1 1 (mkSt 0%nat [])
    = (Raise (UserError 7), mkSt w' [(0%nat, 2%Z); (1%nat, 2%Z)]).
Proof.
  split; [lia |]. split; [lra |].
  apply (init_sampling_fails svd0 zeros sum_fn_point 1 [counter_dist] []
                             failing_dist 2 1 1 1 (UserError 7)
                             (mkSt 0%nat [])).
  - lia.
  - lra.
  - repeat constructor. apply counter_dist_samples.
  - intros w. exists w. reflexivity.
Defined.
